(** * fbtrie: fuzzy dictionary search over a trie and over a forward/backward trie pair

    A shallow embedding of [fbtrie.py] and the properties of its two search
    procedures.

    - A Python [dict] of [dict]s is an association list in insertion order
      (iteration order matters for the order in which results are produced).
    - The DP table [tab] is a list of rows of integers.  The source mutates
      one shared table during the whole walk, so every function that touches
      it takes the table and returns the updated one.
    - An [IndexError] / [ValueError] is the result [None].
    - [Trie] and [FBTrie] are the walks as the code writes them, by recursion
      on the trie, with no bound on the depth.  The interpreter runs every
      level as a generator frame and raises [RecursionError] at its recursion
      limit: [Limited] runs the same code with the number of frames that are
      left, and [refines] relates the two.
    - A generator is the list of the values it yields when it is run to
      completion.
    - Depths and columns are natural numbers: the walk is entered with
      [i = 1], [i] only grows and [j] starts at 1, so [i - 1] and [j - 1]
      are never the negative indices that Python would count from the end. *)

From Stdlib Require Import ZArith Lia Ascii String.
From stdpp Require Import base relations list option strings.

Local Open Scope Z_scope.

(** ** Words and symbols *)

Abbreviation word := (list ascii).

(** The terminator "\0" appended by [insert]. *)
Definition NUL : ascii := Ascii.zero.

(** The code point of a symbol: the key used by [sorted(..., key=lambda x: x[0])]. *)
Definition ord (c : ascii) : N := N_of_ascii c.

Definition w (s : string) : word := list_ascii_of_string s.

(** A word that may be inserted: it holds no terminator. *)
Definition term_free (s : word) : Prop := NUL ∉ s.

(** ** Levenshtein distance, the reference the search is measured against *)

Definition cost (a b : ascii) : nat := if decide (a = b) then 0%nat else 1%nat.

Definition min3 (a b c : nat) : nat := Nat.min (Nat.min a b) c.

(** Minimum number of single-symbol insertions, deletions and substitutions
    turning [s] into [t], by the usual recursion on the first symbols. *)
Fixpoint lev (s t : word) {struct s} : nat :=
  match s with
  | [] => length t
  | a :: s' =>
      (fix lev_s (t : word) : nat :=
         match t with
         | [] => length s
         | b :: t' => min3 (lev s' t' + cost a b) (lev s' t + 1) (lev_s t' + 1)
         end) t
  end.

(** An explicit edit script of cost [n] from [s] to [t]; [lev] is the least
    such cost ([lev_script], [script_lev] below). *)
Inductive script : word → word → nat → Prop :=
  | script_nil : script [] [] 0
  | script_keep a s t n : script s t n → script (a :: s) (a :: t) n
  | script_subst a b s t n : script s t n → script (a :: s) (b :: t) (S n)
  | script_delete a s t n : script s t n → script (a :: s) t (S n)
  | script_insert b s t n : script s t n → script s (b :: t) (S n).

(** ** The DP table *)

Abbreviation table := (list (list Z)).

(** [tab[i][j]] *)
Definition get2 (tab : table) (i j : nat) : option Z :=
  row ← tab !! i; row !! j.

(** [tab[i][j] = v]; fails when [i] or [j] is out of range. *)
Definition set2 (tab : table) (i j : nat) (v : Z) : option table :=
  row ← tab !! i;
  if decide (j < length row)%nat then Some (<[i := <[j := v]> row]> tab) else None.

(** [for j in js: tab = body tab j], stopping at the first failure. *)
Fixpoint for_each (body : table → nat → option table) (js : list nat) (tab : table)
  : option table :=
  match js with
  | [] => Some tab
  | j :: js' => tab' ← body tab j; for_each body js' tab'
  end.

(** [min(row)]; fails on the empty list. *)
Definition list_min (row : list Z) : option Z :=
  match row with
  | [] => None
  | x :: xs => Some (foldl Z.min x xs)
  end.

(** [tab = [[0] * (n + 1) for _ in range(n + k + 1)]] followed by
    [for j in range(n + 1): tab[0][j] = j].  [range] of a non-positive number
    is empty, which is [Z.to_nat]. *)
Definition new_table (n : nat) (k : Z) : option table :=
  for_each (λ tab j, set2 tab 0 j (Z.of_nat j)) (seq 0 (n + 1))
           (replicate (Z.to_nat (Z.of_nat n + k + 1)) (replicate (n + 1) 0)).

(** One cell of row [i] (lines 94-98 and 162-166). *)
Definition fill_cell (c : ascii) (query : word) (i : nat) (tab : table) (j : nat)
  : option table :=
  q ← query !! (j - 1)%nat;
  let sub_cost := if decide (c ≠ q) then 1 else 0 in
  diag ← get2 tab (i - 1) (j - 1);
  up ← get2 tab (i - 1) j;
  left ← get2 tab i (j - 1);
  let sub := diag + sub_cost in
  let insert := up + 1 in
  let delete := left + 1 in
  set2 tab i j (Z.min (Z.min sub insert) delete).

(** Row [i] from row [i - 1] and the edge symbol [c] (lines 92-98 and 160-166):
    [tab[i][0] = i], then the cells [1 .. len(tab[i]) - 1] left to right. *)
Definition fill_row (c : ascii) (query : word) (i : nat) (tab : table) : option table :=
  tab0 ← set2 tab i 0 (Z.of_nat i);
  row ← tab0 !! i;
  for_each (fill_cell c query i) (seq 1 (length row - 1)) tab0.

(** ** Tries *)

#[local] Unset Elimination Schemes.
Inductive node : Type := Node (items : list (ascii * node)).
#[local] Set Elimination Schemes.

Definition items (nd : node) : list (ascii * node) := let 'Node cs := nd in cs.

Abbreviation results := (list (list ascii * Z)).

Module Trie.

(** [if c not in node: node[c] = {}] and then the rest of the insertion in
    [node[c]]: a new key goes to the end, an old key keeps its place. *)
Fixpoint descend (c : ascii) (f : node → node) (cs : list (ascii * node))
  : list (ascii * node) :=
  match cs with
  | [] => [(c, f (Node []))]
  | (c', child) :: rest =>
      if decide (c' = c) then (c', f child) :: rest
      else (c', child) :: descend c f rest
  end.

Fixpoint insert_path (p : word) (nd : node) : node :=
  match p with
  | [] => nd
  | c :: p' => Node (descend c (insert_path p') (items nd))
  end.

Definition insert (word : word) (root : node) : node :=
  insert_path (word ++ [NUL]) root.

(** [traverse(d, node, sofar)] *)
Fixpoint traverse (d : Z) (nd : node) (sofar : word) : results :=
  match nd with
  | Node cs =>
      (fix each (cs : list (ascii * node)) : results :=
         match cs with
         | [] => []
         | (c, child) :: rest =>
             (if decide (c = NUL) then [(sofar, d)]
              else traverse d child (sofar ++ [c])) ++ each rest
         end) cs
  end.

Section items.
Context {X : Type}.
Variable descend_into : X → nat → word → table → option (results * table).
Variables (k : Z) (query : word) (i : nat) (sofar : word).

(** The loop [for c, child in node.items()] of [fuzzy_] (lines 85-103);
    [descend_into child (i + 1) new tab] is the recursive call. *)
Fixpoint fuzzy_items (cs : list (ascii * X)) (tab : table)
  : option (results * table) :=
  match cs with
  | [] => Some ([], tab)
  | (c, child) :: rest =>
      d ← get2 tab (i - 1) (length query);
      if bool_decide (c = NUL) && bool_decide (d ≤ k) then
        '(out, tab') ← fuzzy_items rest tab;
        Some ((sofar, d) :: out, tab')
      else
        let new := sofar ++ [c] in
        tab1 ← fill_row c query i tab;
        row ← tab1 !! i;
        smallest ← list_min row;
        if bool_decide (smallest ≤ k) then
          '(out1, tab2) ← descend_into child (i + 1)%nat new tab1;
          '(out2, tab3) ← fuzzy_items rest tab2;
          Some (out1 ++ out2, tab3)
        else fuzzy_items rest tab1
  end.
End items.

(** [fuzzy_(k_fn, tab, node, i, sofar, query, prefix)].  The recursion is on
    the trie and as deep as the walk goes; the frames it takes in the
    interpreter, and the [RecursionError] of a walk that is too deep, are in
    [Limited.fuzzy_] below. *)
Fixpoint fuzzy_ (k_fn : nat → Z) (query : word) (prefix : bool) (nd : node)
  {struct nd} : nat → word → table → option (results * table) :=
  λ i sofar tab,
    let k := k_fn i in
    if prefix && bool_decide (length query + 1 ≤ i)%nat then
      d ← get2 tab (i - 1) (length query);
      Some (if bool_decide (d ≤ k) then traverse d nd sofar else [], tab)
    else if bool_decide (length tab ≤ i)%nat then Some ([], tab)
    else
      match nd with
      | Node cs => fuzzy_items (fuzzy_ k_fn query prefix) k query i sofar cs tab
      end.

(** [fuzzy(query, k, k_fn=None, prefix=False)] *)
Definition fuzzy_with (root : node) (query : word) (k : Z)
  (k_fn : option (nat → Z)) (prefix : bool) : option results :=
  let n := length query in
  tab ← new_table n k;
  let k_fn := default (λ _, k) k_fn in
  fst <$> fuzzy_ k_fn query prefix root 1 [] tab.

Definition fuzzy (root : node) (query : word) (k : Z) : option results :=
  fuzzy_with root query k None false.

(** The trie after inserting the words of [ws] in order into an empty one. *)
Definition build (ws : list word) : node := foldl (λ t x, insert x t) (Node []) ws.

End Trie.

(** What the loop of [trie_fuzzy_] decides for an edge once its row is
    computed (lines 168-176): descend with a budget and a phase, or prune. *)
Inductive verdict : Type :=
  | Descend (subk : Z) (phase : nat)
  | Prune.

Module FBTrie.

(** [self.f] and [self.b] *)
Record t : Type := { f : node; b : node }.

Definition empty : t := {| f := Node []; b := Node [] |}.

Definition insert (word : word) (fb : t) : t :=
  {| f := Trie.insert word (f fb); b := Trie.insert (reverse word) (b fb) |}.

Definition build (ws : list word) : t := foldl (λ fb x, insert x fb) empty ws.

(** [sorted(node.items(), key=lambda x: x[0])]: a stable sort by code point. *)
Fixpoint place {X : Type} (e : ascii * X) (l : list (ascii * X)) : list (ascii * X) :=
  match l with
  | [] => [e]
  | e' :: l' =>
      if bool_decide (ord (fst e') < ord (fst e))%N then e' :: place e l' else e :: l
  end.

Definition sorted_items {X : Type} (cs : list (ascii * X)) : list (ascii * X) :=
  foldr place [] cs.

(** Lines 168-176.  [phase == 1 and tab[i][len(subq)] <= subk] reads the
    table only in phase 1. *)
Definition verdict_at (subk k : Z) (subq : word) (phase i : nat) (tab : table)
  : option verdict :=
  hit ← (if bool_decide (phase = 1%nat)
         then col ← get2 tab i (length subq); Some (bool_decide (col ≤ subk))
         else Some false);
  if hit : bool then Some (Descend k 2)
  else
    row ← tab !! i;
    smallest ← list_min row;
    Some (if bool_decide (smallest ≤ subk) then Descend subk phase else Prune).

Section items.
Context {X : Type}.
Variable descend_into : X → Z → nat → nat → word → table → option (results * table).
Variables (subk k : Z) (subq query : word) (phase i : nat) (sofar : word).

(** The loop of [trie_fuzzy_] over the sorted items (lines 153-176);
    [descend_into child subk' phase' (i + 1) new tab] is the recursive call. *)
Fixpoint trie_fuzzy_items (cs : list (ascii * X)) (tab : table)
  : option (results * table) :=
  match cs with
  | [] => Some ([], tab)
  | (c, child) :: rest =>
      d ← get2 tab (i - 1) (length query);
      if bool_decide (c = NUL) && bool_decide (d ≤ k) then
        '(out, tab') ← trie_fuzzy_items rest tab;
        Some ((sofar, d) :: out, tab')
      else
        let new := sofar ++ [c] in
        tab1 ← fill_row c query i tab;
        v ← verdict_at subk k subq phase i tab1;
        match v with
        | Descend subk' phase' =>
            '(out1, tab2) ← descend_into child subk' phase' (i + 1)%nat new tab1;
            '(out2, tab3) ← trie_fuzzy_items rest tab2;
            Some (out1 ++ out2, tab3)
        | Prune => trie_fuzzy_items rest tab1
        end
  end.
End items.

(** [trie_fuzzy_(subk, k, tab, node, i, sofar, subq, query, phase)].  The
    children are turned into their walks before the items are sorted, which
    keeps the recursion structural; [trie_fuzzy__unfold] below gives the
    equation in the shape of the source.  As for [Trie.fuzzy_], the frames
    and the [RecursionError] of a walk that is too deep are in
    [Limited.trie_fuzzy_] below. *)
Fixpoint trie_fuzzy_ (k : Z) (subq query : word) (nd : node) {struct nd}
  : Z → nat → nat → word → table → option (results * table) :=
  λ subk phase i sofar tab,
    if bool_decide (length tab ≤ i)%nat then Some ([], tab)
    else
      match nd with
      | Node cs =>
          trie_fuzzy_items (λ walk, walk) subk k subq query phase i sofar
            (sorted_items
               (map (λ e : ascii * node, (fst e, trie_fuzzy_ k subq query (snd e))) cs))
            tab
      end.

(** [trie_fuzzy(trie, subk, k, subq, query)] *)
Definition trie_fuzzy (root : node) (subk k : Z) (subq query : word)
  : option results :=
  let n := length query in
  tab ← new_table n k;
  fst <$> trie_fuzzy_ k subq query root subk 1 1 [] tab.

(** [k1 = (k - 1) // 2] and [k2 = k // 2]; [//] rounds towards minus
    infinity, as [Z.div] does. *)
Definition k1 (k : Z) : Z := (k - 1) / 2.
Definition k2 (k : Z) : Z := k / 2.

(** [fuzzy(query, k)] *)
Definition fuzzy (fb : t) (query : word) (k : Z) : option results :=
  let n := length query in
  let q1 := take (n / 2) query in
  let q2 := drop (n / 2) query in
  out_f ← trie_fuzzy (f fb) (k1 k) k q1 query;
  out_b ← trie_fuzzy (b fb) (k2 k) k (reverse q2) (reverse query);
  Some (out_f ++ map (λ r : word * Z, (reverse (fst r), snd r)) out_b).

End FBTrie.

(** ** The same searches under the interpreter's recursion limit *)

(** [Trie] and [FBTrie] above describe the walks themselves.  The source runs
    them as nested generators, one frame for every generator that is running,
    and the interpreter raises [RecursionError] when a frame is entered and
    none is left.  The definitions below run the same code with [frames], the
    number of frames the interpreter still allows when the generator of the
    search is first resumed (the recursion limit less the depth of the
    caller), and tell the exceptions apart.  A run that raises is [Raised e],
    whatever it yielded before.

    The frames are those of the generators and functions of [fbtrie.py]:
    [fuzzy], [fuzzy_], [traverse], [trie_fuzzy], [trie_fuzzy_], the generator
    expression of [FBTrie.fuzzy], and during their calls [k_fn] and the sort
    key.  This is the depth of the interpreter's own stack, which is what
    the recursion limit bounds.  Calls of built-in functions ([len], [min],
    [sorted], [dict.items]) are not counted, and neither is the list
    comprehension that builds the table, which interpreters from 3.12 on run
    in the frame of its caller; an interpreter that counts them while they
    run raises at the same depths or a few frames earlier. *)

Inductive exn : Type := IndexError | ValueError | RecursionError.

Inductive result (A : Type) : Type :=
  | Done (a : A)
  | Raised (e : exn).
Arguments Done {A} a.
Arguments Raised {A} e.

#[global] Instance result_bind : MBind result :=
  λ A B f r, match r with Done a => f a | Raised e => Raised e end.

(** A subscript out of range. *)
Definition indexed {A : Type} (o : option A) : result A :=
  match o with Some a => Done a | None => Raised IndexError end.

(** [min] of an empty list. *)
Definition valued {A : Type} (o : option A) : result A :=
  match o with Some a => Done a | None => Raised ValueError end.

(** Entering the frame of a generator or of a function: [body] runs with the
    frames that are left. *)
Definition enter {A : Type} (frames : nat) (body : nat → result A) : result A :=
  match frames with
  | O => Raised RecursionError
  | S frames => body frames
  end.

Module Limited.

(** [traverse(d, node, sofar)] *)
Fixpoint traverse (d : Z) (nd : node) {struct nd} : nat → word → result results :=
  λ frames sofar,
    enter frames (λ frames,
      match nd with
      | Node cs =>
          (fix each (cs : list (ascii * node)) : result results :=
             match cs with
             | [] => Done []
             | (c, child) :: rest =>
                 out1 ← (if decide (c = NUL) then Done [(sofar, d)]
                         else traverse d child frames (sofar ++ [c]));
                 out2 ← each rest;
                 Done (out1 ++ out2)
             end) cs
      end).

Section items.
Context {X : Type}.
Variable descend_into : X → nat → word → table → result (results * table).
Variables (k : Z) (query : word) (i : nat) (sofar : word).

(** The loop of [fuzzy_] (lines 85-103). *)
Fixpoint fuzzy_items (cs : list (ascii * X)) (tab : table) : result (results * table) :=
  match cs with
  | [] => Done ([], tab)
  | (c, child) :: rest =>
      d ← indexed (get2 tab (i - 1) (length query));
      if bool_decide (c = NUL) && bool_decide (d ≤ k) then
        '(out, tab') ← fuzzy_items rest tab;
        Done ((sofar, d) :: out, tab')
      else
        let new := sofar ++ [c] in
        tab1 ← indexed (fill_row c query i tab);
        row ← indexed (tab1 !! i);
        smallest ← valued (list_min row);
        if bool_decide (smallest ≤ k) then
          '(out1, tab2) ← descend_into child (i + 1)%nat new tab1;
          '(out2, tab3) ← fuzzy_items rest tab2;
          Done (out1 ++ out2, tab3)
        else fuzzy_items rest tab1
  end.
End items.

(** [fuzzy_(k_fn, tab, node, i, sofar, query, prefix)]: the frame of the
    generator, and inside it one more for the call [k_fn(i)]. *)
Fixpoint fuzzy_ (k_fn : nat → Z) (query : word) (prefix : bool) (nd : node)
  {struct nd} : nat → nat → word → table → result (results * table) :=
  λ frames i sofar tab,
    enter frames (λ frames,
      k ← enter frames (λ _, Done (k_fn i));
      if prefix && bool_decide (length query + 1 ≤ i)%nat then
        d ← indexed (get2 tab (i - 1) (length query));
        if bool_decide (d ≤ k) then
          out ← traverse d nd frames sofar; Done (out, tab)
        else Done ([], tab)
      else if bool_decide (length tab ≤ i)%nat then Done ([], tab)
      else
        match nd with
        | Node cs =>
            fuzzy_items (λ child, fuzzy_ k_fn query prefix child frames)
              k query i sofar cs tab
        end).

(** [fuzzy(query, k, k_fn=None, prefix=False)] *)
Definition fuzzy_with (frames : nat) (root : node) (query : word) (k : Z)
  (k_fn : option (nat → Z)) (prefix : bool) : result results :=
  enter frames (λ frames,
    let n := length query in
    tab ← indexed (new_table n k);
    let k_fn := default (λ _, k) k_fn in
    '(out, _) ← fuzzy_ k_fn query prefix root frames 1 [] tab;
    Done out).

Definition fuzzy (frames : nat) (root : node) (query : word) (k : Z) : result results :=
  fuzzy_with frames root query k None false.

(** Lines 168-176, with the exception each step can raise. *)
Definition verdict_at (subk k : Z) (subq : word) (phase i : nat) (tab : table)
  : result verdict :=
  hit ← (if bool_decide (phase = 1%nat)
         then col ← indexed (get2 tab i (length subq)); Done (bool_decide (col ≤ subk))
         else Done false);
  if hit : bool then Done (Descend k 2)
  else
    row ← indexed (tab !! i);
    smallest ← valued (list_min row);
    Done (if bool_decide (smallest ≤ subk) then Descend subk phase else Prune).

Section fb_items.
Context {X : Type}.
Variable descend_into : X → Z → nat → nat → word → table → result (results * table).
Variables (subk k : Z) (subq query : word) (phase i : nat) (sofar : word).

(** The loop of [trie_fuzzy_] (lines 153-176). *)
Fixpoint trie_fuzzy_items (cs : list (ascii * X)) (tab : table)
  : result (results * table) :=
  match cs with
  | [] => Done ([], tab)
  | (c, child) :: rest =>
      d ← indexed (get2 tab (i - 1) (length query));
      if bool_decide (c = NUL) && bool_decide (d ≤ k) then
        '(out, tab') ← trie_fuzzy_items rest tab;
        Done ((sofar, d) :: out, tab')
      else
        let new := sofar ++ [c] in
        tab1 ← indexed (fill_row c query i tab);
        v ← verdict_at subk k subq phase i tab1;
        match v with
        | Descend subk' phase' =>
            '(out1, tab2) ← descend_into child subk' phase' (i + 1)%nat new tab1;
            '(out2, tab3) ← trie_fuzzy_items rest tab2;
            Done (out1 ++ out2, tab3)
        | Prune => trie_fuzzy_items rest tab1
        end
  end.
End fb_items.

(** [trie_fuzzy_(subk, k, tab, node, i, sofar, subq, query, phase)]: the
    frame of the generator, and inside it, when the node has items, one more
    for the calls of the sort key [lambda x: x[0]]. *)
Fixpoint trie_fuzzy_ (k : Z) (subq query : word) (nd : node) {struct nd}
  : nat → Z → nat → nat → word → table → result (results * table) :=
  λ frames subk phase i sofar tab,
    enter frames (λ frames,
      if bool_decide (length tab ≤ i)%nat then Done ([], tab)
      else
        match nd with
        | Node cs =>
            _ ← match cs with
                | [] => Done tt
                | _ :: _ => enter frames (λ _, Done tt)
                end;
            trie_fuzzy_items (λ walk, walk) subk k subq query phase i sofar
              (FBTrie.sorted_items
                 (map (λ e : ascii * node,
                         (fst e, trie_fuzzy_ k subq query (snd e) frames)) cs))
              tab
        end).

(** [trie_fuzzy(trie, subk, k, subq, query)] *)
Definition trie_fuzzy (frames : nat) (root : node) (subk k : Z) (subq query : word)
  : result results :=
  enter frames (λ frames,
    let n := length query in
    tab ← indexed (new_table n k);
    '(out, _) ← trie_fuzzy_ k subq query root frames subk 1 1 [] tab;
    Done out).

(** [fuzzy(query, k)]; the generator expression of lines 137-138 is a frame
    of its own around the second search. *)
Definition fb_fuzzy (frames : nat) (fb : FBTrie.t) (query : word) (k : Z)
  : result results :=
  enter frames (λ frames,
    let n := length query in
    let q1 := take (n / 2) query in
    let q2 := drop (n / 2) query in
    out_f ← trie_fuzzy frames (FBTrie.f fb) (FBTrie.k1 k) k q1 query;
    out_b ← enter frames (λ frames,
               trie_fuzzy frames (FBTrie.b fb) (FBTrie.k2 k) k (reverse q2) (reverse query));
    Done (out_f ++ map (λ r : word * Z, (reverse (fst r), snd r)) out_b)).

End Limited.

(** A run under the limit agrees with the run of the walk itself: it returns
    the same value, or both raise an exception other than [RecursionError]. *)
Definition agrees {A : Type} (r : result A) (o : option A) : Prop :=
  match r, o with
  | Done a, Some b => a = b
  | Raised IndexError, None | Raised ValueError, None => True
  | _, _ => False
  end.

(** [r] refines [o]: the run under the limit is cut short by
    [RecursionError], or it agrees with the run of the walk. *)
Definition refines {A : Type} (r : result A) (o : option A) : Prop :=
  r = Raised RecursionError ∨ agrees r o.

(** A run that was not cut short by [RecursionError] and, when it returned,
    left a table of [rows] rows. *)
Definition in_depth (rows : nat) (r : result (results * table)) : Prop :=
  match r with
  | Done (_, tab') => length tab' = rows
  | Raised RecursionError => False
  | Raised _ => True
  end.

(** The word of [n] symbols a. *)
Definition a_word (n : nat) : word := replicate n "a"%char.

(** ** The walk in terms of distances *)

(** The row the table holds for the path [p]: cell [j] is the distance from
    [p] to the first [j] symbols of the query. *)
Definition lev_row (p query : word) : list Z :=
  (λ j, Z.of_nat (lev p (take j query))) <$> seq 0 (length query + 1).

(** The state of the table when the walk stands at the end of [path]: it has
    [rows] rows of [len(query) + 1] cells, and the rows [0 .. len(path)] hold
    the distances of the prefixes of [path]. *)
Record table_ok (query : word) (rows : nat) (path : word) (tab : table) : Prop := {
  ok_rows : length tab = rows;
  ok_cols : ∀ i row, tab !! i = Some row → length row = (length query + 1)%nat;
  ok_path : ∀ i, (i ≤ length path)%nat → tab !! i = Some (lev_row (take i path) query);
}.

(** [min(tab[i])] for the row of the path [p]. *)
Definition row_min (p query : word) : Z := default 0 (list_min (lev_row p query)).

(** What the loop of [Trie.fuzzy_] yields for one item [e] of the node at
    the end of [sofar]; [below child new] is what the walk yields below the
    child. *)
Definition walk_item (k : Z) (query sofar : word) (below : node → word → results)
  (e : ascii * node) : results :=
  if bool_decide (fst e = NUL) && bool_decide (Z.of_nat (lev sofar query) ≤ k)
  then [(sofar, Z.of_nat (lev sofar query))]
  else if bool_decide (row_min (sofar ++ [fst e]) query ≤ k)
       then below (snd e) (sofar ++ [fst e])
       else [].

(** What [Trie.fuzzy_] yields below [nd] when it is entered with the path
    [sofar], a constant budget [k], prefix mode off and a table of [rows]
    rows: the same walk with the table replaced by the distances it holds
    ([fuzzy__walk] below). *)
Fixpoint walk (k : Z) (query : word) (rows : nat) (nd : node) (sofar : word)
  {struct nd} : results :=
  if bool_decide (rows ≤ length sofar + 1)%nat then []
  else
    match nd with
    | Node cs => flat_map (walk_item k query sofar (walk k query rows)) cs
    end.

(** ** Shape of the tries that [insert] builds *)

(** A key occurs once in a [dict]. *)
Fixpoint uniq_keys (nd : node) : bool :=
  match nd with
  | Node cs => bool_decide (NoDup (map fst cs)) && forallb (λ e, uniq_keys (snd e)) cs
  end.

Definition is_leaf (nd : node) : bool :=
  match nd with Node [] => true | _ => false end.

(** Below a terminator there is nothing: the case of every trie built from
    words that hold no terminator. *)
Fixpoint well_marked (nd : node) : bool :=
  match nd with
  | Node cs =>
      forallb (λ e, implb (bool_decide (fst e = NUL)) (is_leaf (snd e))
                    && well_marked (snd e)) cs
  end.

(** A result list whose pairs carry the distance to the query, within the
    budget [k], for words shorter than the table is deep. *)
Definition sound (k : Z) (query : word) (rows : nat) (out : results) : Prop :=
  ∀ x d, In (x, d) out →
    d = Z.of_nat (lev x query) ∧ d ≤ k ∧ (length x + 1 < rows)%nat.

(** ** The calls of a run *)

(** A call of [fuzzy_]: the node, the depth [i], the path [sofar] and the
    table as it is when the call is entered. *)
Record call : Type := Call {
  call_node : node;
  call_i : nat;
  call_sofar : word;
  call_tab : table;
}.

(** [makes k query st st']: the call [st] of [Trie.fuzzy_] (constant budget
    [k], prefix mode off) makes the recursive call [st'] of line 102.  The
    loop has gone through the items [before], stands at the item
    [(c, child)] with the table [tab0], does not take the terminator branch,
    has computed row [i], and the smallest cell of the row is within budget. *)
Inductive makes (k : Z) (query : word) : call → call → Prop :=
  | makes_child cs i sofar tab before c child after out tab0 d tab1 row smallest :
      (i < length tab)%nat →
      cs = before ++ (c, child) :: after →
      Trie.fuzzy_items (Trie.fuzzy_ (λ _, k) query false) k query i sofar before tab
        = Some (out, tab0) →
      get2 tab0 (i - 1) (length query) = Some d →
      bool_decide (c = NUL) && bool_decide (d ≤ k) = false →
      fill_row c query i tab0 = Some tab1 →
      tab1 !! i = Some row →
      list_min row = Some smallest →
      smallest ≤ k →
      makes k query (Call (Node cs) i sofar tab) (Call child (i + 1) (sofar ++ [c]) tab1).

(** The calls of the run [Trie.fuzzy root query k]. *)
Definition reached (k : Z) (query : word) (root : node) (st : call) : Prop :=
  ∃ tab, new_table (length query) k = Some tab
         ∧ rtc (makes k query) (Call root 1 [] tab) st.

(** ** The words a trie holds *)

(** The keys of [p] can be followed one after the other from [nd]. *)
Fixpoint has_path (p : word) (nd : node) : Prop :=
  match p with
  | [] => True
  | c :: p' => ∃ child, In (c, child) (items nd) ∧ has_path p' child
  end.

(** [nd] holds the word [s]: its symbols and then the terminator are a path. *)
Definition holds (nd : node) (s : word) : Prop := has_path (s ++ [NUL]) nd.

(** ** The forward/backward walk in terms of distances *)

(** The verdict of [FBTrie.verdict_at] on the row of the path [p]. *)
Definition fb_verdict (subk k : Z) (subq query : word) (phase : nat) (p : word) : verdict :=
  if bool_decide (phase = 1%nat)
     && bool_decide (Z.of_nat (lev p (take (length subq) query)) ≤ subk)
  then Descend k 2
  else if bool_decide (row_min p query ≤ subk) then Descend subk phase
  else Prune.

(** What the loop of [FBTrie.trie_fuzzy_] yields for one item. *)
Definition fb_walk_item (subk k : Z) (subq query : word) (phase : nat) (sofar : word)
  (below : node → Z → nat → word → results) (e : ascii * node) : results :=
  if bool_decide (fst e = NUL) && bool_decide (Z.of_nat (lev sofar query) ≤ k)
  then [(sofar, Z.of_nat (lev sofar query))]
  else match fb_verdict subk k subq query phase (sofar ++ [fst e]) with
       | Descend subk' phase' => below (snd e) subk' phase' (sofar ++ [fst e])
       | Prune => []
       end.

(** The pairs [FBTrie.trie_fuzzy_] yields below [nd], in the order of the
    items of the nodes rather than in sorted order ([trie_fuzzy__walk] below
    relates the two as sets). *)
Fixpoint fb_walk (k : Z) (subq query : word) (rows : nat) (nd : node) {struct nd}
  : Z → nat → word → results :=
  λ subk phase sofar,
    if bool_decide (rows ≤ length sofar + 1)%nat then []
    else
      match nd with
      | Node cs =>
          flat_map (fb_walk_item subk k subq query phase sofar
                      (fb_walk k subq query rows)) cs
      end.

(** ** The walk in prefix mode *)

(** What [Trie.fuzzy_] yields below [nd] with a constant budget [k] in prefix
    mode: once the path is as long as the query, every word below the node
    with the distance of the path, if that is within budget; before that,
    the items as in [walk]. *)
Fixpoint walk_prefix (k : Z) (query : word) (rows : nat) (nd : node) (sofar : word)
  {struct nd} : results :=
  if bool_decide (length query + 1 ≤ length sofar + 1)%nat then
    if bool_decide (Z.of_nat (lev sofar query) ≤ k)
    then Trie.traverse (Z.of_nat (lev sofar query)) nd sofar else []
  else if bool_decide (rows ≤ length sofar + 1)%nat then []
  else
    match nd with
    | Node cs => flat_map (walk_item k query sofar (walk_prefix k query rows)) cs
    end.

(** ** The printer *)

(** The two calls of [print] in [Trie.print_]: [print(before, sofar, "/",
    sep="")] for a node with more than one item, and [print(before, sofar,
    sep="")] for a terminator. *)
Inductive print_call : Type :=
  | PrintBranch (before sofar : word)
  | PrintWord (before sofar : word).

(** The line a call writes. *)
Definition rendered (c : print_call) : word :=
  match c with
  | PrintBranch before sofar => before ++ sofar ++ ["/"%char]
  | PrintWord before sofar => before ++ sofar
  end.

Module Printer.

(** [Trie.print_(node, sofar, before)]: the calls of [print], in order. *)
Fixpoint print_ (nd : node) (sofar before : word) {struct nd} : list print_call :=
  match nd with
  | Node cs =>
      let num_ch := length cs in
      (if bool_decide (1 < length cs)%nat then [PrintBranch before sofar] else [])
      ++ (let before := before ++ (if bool_decide (1 < num_ch)%nat then [" "%char] else []) in
          flat_map (λ e : ascii * node,
            if decide (fst e = NUL) then [PrintWord before sofar]
            else print_ (snd e) (sofar ++ [fst e]) before) cs)
  end.

(** [Trie.print()] *)
Definition print (root : node) : list print_call := print_ root [] [].

(** [FBTrie.print()]: the forward trie, then the backward trie. *)
Definition fb_print (fb : FBTrie.t) : list print_call :=
  print (FBTrie.f fb) ++ print (FBTrie.b fb).

End Printer.

(** The words of the word lines, in the order they are written. *)
Definition printed_words (calls : list print_call) : list word :=
  flat_map (λ c, match c with PrintWord _ sofar => [sofar] | PrintBranch _ _ => [] end) calls.

(** ** Running examples *)

Definition cat_words : list word := [w "cat"; w "cats"; w "bat"; w "rat"].

(** The table of the query abcd with budget 2 once row 1 is computed for
    the edge a (its first two rows). *)
Definition abcd_rows : table := [[0; 1; 2; 3; 4]; [1; 0; 1; 2; 3]].

(** The call made below the edge a in the run for the dictionary a, the
    query a and budget 1. *)
Definition call_below_a : call :=
  Call (Node [(NUL, Node [])]) 2 (w "a") [[0; 1]; [1; 0]; [0; 0]].

#[global] Instance term_free_dec (s : word) : Decision (term_free s).
Proof. unfold term_free. apply _. Defined.

(** * Properties *)

(** ** Levenshtein distance *)

Section lev_facts.
Local Open Scope nat_scope.
Local Hint Constructors script : core.

Lemma lev_nil_l t : lev [] t = length t.
Proof. reflexivity. Qed.

Lemma lev_nil_r s : lev s [] = length s.
Proof. by destruct s. Qed.

Lemma lev_cons a b s t :
  lev (a :: s) (b :: t)
  = min3 (lev s t + cost a b) (lev s (b :: t) + 1) (lev (a :: s) t + 1).
Proof. reflexivity. Qed.

Lemma cost_same a : cost a a = 0.
Proof. unfold cost. by rewrite decide_True. Qed.

Lemma cost_le_1 a b : cost a b ≤ 1.
Proof. unfold cost. case_decide; lia. Qed.

(** [lev s t] is the cost of some edit script... *)
Lemma script_lev s t : script s t (lev s t).
Proof.
  revert t. induction s as [|a s IHs]; intros t.
  - rewrite lev_nil_l. induction t as [|b t IHt]; simpl; by constructor.
  - induction t as [|b t IHt].
    + rewrite lev_nil_r. simpl. apply script_delete.
      specialize (IHs []). by rewrite lev_nil_r in IHs.
    + rewrite lev_cons. unfold min3.
      destruct (Nat.min_spec (lev s t + cost a b) (lev s (b :: t) + 1)) as [[_ ->]|[_ ->]];
      [destruct (Nat.min_spec (lev s t + cost a b) (lev (a :: s) t + 1)) as [[_ ->]|[_ ->]]
      |destruct (Nat.min_spec (lev s (b :: t) + 1) (lev (a :: s) t + 1)) as [[_ ->]|[_ ->]]].
      * unfold cost. case_decide; subst.
        -- rewrite Nat.add_0_r. by apply script_keep.
        -- rewrite Nat.add_1_r. by apply script_subst.
      * rewrite Nat.add_1_r. by apply script_insert.
      * rewrite Nat.add_1_r. by apply script_delete.
      * rewrite Nat.add_1_r. by apply script_insert.
Qed.

Lemma lev_delete_le a s t : lev (a :: s) t ≤ lev s t + 1.
Proof.
  destruct t as [|b t].
  - rewrite !lev_nil_r. simpl. lia.
  - rewrite lev_cons. unfold min3. lia.
Qed.

Lemma lev_insert_le b s t : lev s (b :: t) ≤ lev s t + 1.
Proof.
  destruct s as [|a s].
  - rewrite !lev_nil_l. simpl. lia.
  - rewrite lev_cons. unfold min3. lia.
Qed.

(** ... and no script is cheaper. *)
Lemma lev_script s t n : script s t n → lev s t ≤ n.
Proof.
  induction 1 as [|a s t n _ IH|a b s t n _ IH|a s t n _ IH|b s t n _ IH].
  - done.
  - rewrite lev_cons, cost_same. unfold min3. lia.
  - rewrite lev_cons. pose proof (cost_le_1 a b). unfold min3. lia.
  - pose proof (lev_delete_le a s t). lia.
  - pose proof (lev_insert_le b s t). lia.
Qed.

(** Scripts can be extended at the end as well as at the front. *)
Lemma script_keep_end a s t n : script s t n → script (s ++ [a]) (t ++ [a]) n.
Proof. induction 1; simpl; auto. Qed.

Lemma script_subst_end a b s t n : script s t n → script (s ++ [a]) (t ++ [b]) (S n).
Proof. induction 1; simpl; auto. Qed.

Lemma script_delete_end a s t n : script s t n → script (s ++ [a]) t (S n).
Proof. induction 1; simpl; auto. Qed.

Lemma script_insert_end b s t n : script s t n → script s (t ++ [b]) (S n).
Proof. induction 1; simpl; auto. Qed.

Lemma script_reverse s t n : script s t n → script (reverse s) (reverse t) n.
Proof.
  induction 1; rewrite ?reverse_cons; try done.
  - by apply script_keep_end.
  - by apply script_subst_end.
  - by apply script_delete_end.
  - by apply script_insert_end.
Qed.

(** The distance does not change when both strings are reversed. *)
Lemma lev_reverse s t : lev (reverse s) (reverse t) = lev s t.
Proof.
  apply Nat.le_antisymm.
  - apply lev_script, script_reverse, script_lev.
  - rewrite <- (reverse_involutive s), <- (reverse_involutive t) at 1.
    apply lev_script, script_reverse, script_lev.
Qed.

(** The recurrence on the last symbols: the one the table rows follow. *)
Lemma lev_snoc a b s t :
  lev (s ++ [a]) (t ++ [b])
  = min3 (lev s t + cost a b) (lev s (t ++ [b]) + 1) (lev (s ++ [a]) t + 1).
Proof.
  rewrite <- (lev_reverse (s ++ [a]) (t ++ [b])), !reverse_snoc, lev_cons.
  rewrite <- (lev_reverse s (t ++ [b])), <- (lev_reverse (s ++ [a]) t).
  by rewrite !reverse_snoc, lev_reverse.
Qed.

Lemma script_lengths s t n :
  script s t n → length t ≤ length s + n ∧ length s ≤ length t + n.
Proof. induction 1; simpl; lia. Qed.

Lemma lev_length_l s t : length s ≤ length t + lev s t.
Proof. apply (script_lengths s t), script_lev. Qed.

Lemma lev_length_r s t : length t ≤ length s + lev s t.
Proof. apply (script_lengths s t), script_lev. Qed.

Lemma lev_same s : lev s s = 0.
Proof.
  assert (script s s 0) as H by (induction s; auto).
  apply lev_script in H. lia.
Qed.

(** A script for [p ++ s] restricts to a script for [p] against some
    prefix of the target that costs no more. *)
Lemma script_prefix x q n :
  script x q n →
  ∀ p s, x = p ++ s → ∃ j m, j ≤ length q ∧ script p (take j q) m ∧ m ≤ n.
Proof.
  induction 1 as [|a s0 t n _ IH|a b s0 t n _ IH|a s0 t n _ IH|b s0 t n _ IH];
    intros p s E.
  - apply eq_sym, app_eq_nil in E as [-> _]. exists 0, 0. repeat split; auto.
  - destruct p as [|a' p]; simplify_eq/=.
    + exists 0, 0. repeat split; [lia|auto|lia].
    + destruct (IH p s eq_refl) as (j & m & ? & ? & ?).
      exists (S j), m. repeat split; [simpl; lia|simpl; auto|done].
  - destruct p as [|a' p]; simplify_eq/=.
    + exists 0, 0. repeat split; [lia|auto|lia].
    + destruct (IH p s eq_refl) as (j & m & ? & ? & ?).
      exists (S j), (S m). repeat split; [simpl; lia|simpl; auto|lia].
  - destruct p as [|a' p]; simplify_eq/=.
    + exists 0, 0. repeat split; [lia|auto|lia].
    + destruct (IH p s eq_refl) as (j & m & ? & ? & ?).
      exists j, (S m). repeat split; [lia|auto|lia].
  - destruct (IH p s E) as (j & m & ? & ? & ?).
    exists (S j), (S m). repeat split; [simpl; lia|simpl; auto|lia].
Qed.

Lemma lev_prefix p s q :
  ∃ j, j ≤ length q ∧ lev p (take j q) ≤ lev (p ++ s) q.
Proof.
  destruct (script_prefix _ _ _ (script_lev (p ++ s) q) p s eq_refl)
    as (j & m & ? & Hm & ?).
  exists j. split; [done|]. apply lev_script in Hm. lia.
Qed.

End lev_facts.

(** ** The table *)

Section table_facts.
Local Open Scope nat_scope.

Lemma lev_row_length p query : length (lev_row p query) = length query + 1.
Proof. unfold lev_row. by rewrite length_fmap, length_seq. Qed.

Lemma lev_row_lookup p query j :
  j ≤ length query → lev_row p query !! j = Some (Z.of_nat (lev p (take j query))).
Proof.
  intros Hj. unfold lev_row. rewrite list_lookup_fmap, lookup_seq_lt by lia. done.
Qed.

Lemma lev_row_intro p query (row : list Z) :
  length row = length query + 1 →
  (∀ j, j ≤ length query → row !! j = Some (Z.of_nat (lev p (take j query)))) →
  row = lev_row p query.
Proof.
  intros Hlen Hrow. apply list_eq. intros j.
  destruct (decide (j ≤ length query)) as [Hj|Hj].
  - by rewrite Hrow, lev_row_lookup.
  - rewrite !lookup_ge_None_2; [done| |]; rewrite ?lev_row_length; lia.
Qed.

Lemma get2_row (tab : table) i j row : tab !! i = Some row → get2 tab i j = row !! j.
Proof. intros Hi. unfold get2. by rewrite Hi. Qed.

Lemma set2_Some (tab : table) i j v row :
  tab !! i = Some row → j < length row →
  set2 tab i j v = Some (<[i := <[j := v]> row]> tab).
Proof. intros Hi Hj. unfold set2. rewrite Hi. simpl. by rewrite decide_True. Qed.

(** A loop over [a, a + 1, ..., a + m - 1] that keeps an invariant runs to
    its end and establishes the invariant there. *)
Lemma for_each_seq (Inv : nat → table → Prop) body m :
  ∀ a tab,
    Inv a tab →
    (∀ j t, a ≤ j < a + m → Inv j t → ∃ t', body t j = Some t' ∧ Inv (S j) t') →
    ∃ t', for_each body (seq a m) tab = Some t' ∧ Inv (a + m) t'.
Proof.
  induction m as [|m IH]; intros a tab Ha Hstep; simpl.
  - exists tab. by rewrite Nat.add_0_r.
  - destruct (Hstep a tab ltac:(lia) Ha) as (t1 & -> & H1). simpl.
    destruct (IH (S a) t1 H1) as (t' & -> & H').
    + intros j t ? ?. apply Hstep; [lia|done].
    + exists t'. split; [done|]. by rewrite <- Nat.add_succ_comm.
Qed.

Lemma table_ok_weaken query rows path c tab :
  table_ok query rows (path ++ [c]) tab → table_ok query rows path tab.
Proof.
  intros [Hr Hc Hp]. split; [done..|].
  intros i Hi. rewrite (Hp i) by (rewrite length_app; simpl; lia).
  by rewrite take_app_le.
Qed.

Lemma table_ok_lt query rows path tab :
  table_ok query rows path tab → length path < rows.
Proof.
  intros [Hr _ Hp]. rewrite <- Hr.
  apply (lookup_lt_Some _ _ _ (Hp (length path) (le_n _))).
Qed.

Lemma table_ok_get2 query rows path tab j :
  table_ok query rows path tab → j ≤ length query →
  get2 tab (length path) j = Some (Z.of_nat (lev path (take j query))).
Proof.
  intros [_ _ Hp] Hj. unfold get2. rewrite (Hp _ (le_n _)). simpl.
  by rewrite take_ge, lev_row_lookup.
Qed.

(** [new_table] succeeds for a non-negative budget, and row 0 holds [0 .. n]. *)
Lemma new_table_ok query k :
  (0 ≤ k)%Z →
  ∃ tab, new_table (length query) k = Some tab
         ∧ table_ok query (Z.to_nat (Z.of_nat (length query) + k + 1)) [] tab.
Proof.
  intros Hk. set (n := length query). set (R := Z.to_nat (Z.of_nat n + k + 1)).
  assert (0 < R) as HR by lia.
  pose (Inv := λ (j : nat) (t : table),
    length t = R ∧ (∀ i row, t !! i = Some row → length row = n + 1)
    ∧ ∃ row0, t !! 0 = Some row0 ∧ ∀ j', j' < j → row0 !! j' = Some (Z.of_nat j')).
  destruct (for_each_seq Inv (λ tab j, set2 tab 0 j (Z.of_nat j)) (n + 1) 0
              (replicate R (replicate (n + 1) 0%Z))) as (tab & Htab & Hl & Hc & row0 & H0 & Hrow).
  - split; [by rewrite length_replicate|]. split.
    + intros i row [-> _]%lookup_replicate. by rewrite length_replicate.
    + exists (replicate (n + 1) 0%Z). split; [apply lookup_replicate_2; lia|]. lia.
  - intros j t Hj (Hl & Hc & row0 & H0 & Hrow).
    pose proof (Hc _ _ H0) as Hlen.
    eexists. split; [apply (set2_Some _ _ _ _ _ H0); lia|].
    split; [by rewrite length_insert|]. split.
    + intros i row. destruct (decide (i = 0)) as [->|Hne].
      * rewrite list_lookup_insert_eq by lia. intros [= <-]. by rewrite length_insert.
      * rewrite list_lookup_insert_ne by done. apply Hc.
    + eexists. split; [apply list_lookup_insert_eq; lia|].
      intros j' Hj'. destruct (decide (j' = j)) as [->|Hne].
      * rewrite list_lookup_insert_eq by lia. done.
      * rewrite list_lookup_insert_ne by done. apply Hrow. lia.
  - exists tab. split; [exact Htab|]. split; [done|done|].
    intros i Hi. simpl in Hi. assert (i = 0) as -> by lia. rewrite H0. f_equal.
    apply lev_row_intro; [by apply (Hc 0)|].
    intros j Hj. rewrite Hrow by (fold n; lia). rewrite take_0, lev_nil_l.
    rewrite length_take. do 2 f_equal. fold n. lia.
Qed.

(** Computing row [i] for the edge [c] below [path] succeeds and extends the
    exact rows by one; the rows above are not touched. *)
Lemma fill_row_ok query rows path c tab :
  table_ok query rows path tab → length path + 1 < rows →
  ∃ tab1, fill_row c query (length path + 1) tab = Some tab1
          ∧ table_ok query rows (path ++ [c]) tab1.
Proof.
  intros [Hr Hc Hp] Hi. set (n := length query). set (i := length path + 1).
  destruct (lookup_lt_is_Some_2 tab i) as [rowi Hrowi]; [lia|].
  pose proof (Hc _ _ Hrowi) as Hleni. fold n in Hleni.
  unfold fill_row. rewrite (set2_Some _ _ _ _ _ Hrowi) by lia. simpl.
  rewrite list_lookup_insert_eq by lia. simpl. rewrite length_insert, Hleni.
  replace (n + 1 - 1) with n by lia.
  pose (Inv := λ (j : nat) (t : table),
    length t = rows ∧ (∀ i' row, t !! i' = Some row → length row = n + 1)
    ∧ (∀ i', i' ≠ i → t !! i' = tab !! i')
    ∧ ∃ row, t !! i = Some row
        ∧ ∀ j', j' < j → row !! j' = Some (Z.of_nat (lev (path ++ [c]) (take j' query)))).
  destruct (for_each_seq Inv (fill_cell c query i) n 1
              (<[i := <[0 := Z.of_nat i]> rowi]> tab))
    as (tab1 & Htab1 & Hl1 & Hc1 & Hframe & row & Hrow & Hcells).
  - split; [by rewrite length_insert|]. split; [|split].
    + intros i' r. destruct (decide (i' = i)) as [->|Hne].
      * rewrite list_lookup_insert_eq by lia. intros [= <-]. by rewrite length_insert.
      * rewrite list_lookup_insert_ne by done. apply Hc.
    + intros i' Hne. by rewrite list_lookup_insert_ne.
    + eexists. split; [apply list_lookup_insert_eq; lia|].
      intros j' Hj'. assert (j' = 0) as -> by lia.
      rewrite list_lookup_insert_eq by lia. rewrite take_0, lev_nil_r, length_app.
      simpl. done.
  - intros j t Hj (Hl & Hct & Hframe & row & Hrow & Hcells).
    pose proof (Hct _ _ Hrow) as Hlen.
    destruct (lookup_lt_is_Some_2 query (j - 1)) as [qc Hqc]; [fold n; lia|].
    assert (take j query = take (j - 1) query ++ [qc]) as Htake.
    { replace j with (S (j - 1)) at 1 by lia. by apply take_S_r. }
    unfold fill_cell. rewrite Hqc. simpl.
    assert (t !! (i - 1) = Some (lev_row path query)) as Hup.
    { rewrite Hframe by lia. replace (i - 1) with (length path) by lia.
      rewrite (Hp _ (le_n _)). by rewrite take_ge. }
    rewrite !(get2_row _ _ _ _ Hup), (get2_row _ _ _ _ Hrow).
    rewrite !lev_row_lookup by (fold n; lia). simpl.
    rewrite Hcells by lia. simpl.
    eexists. split; [apply (set2_Some _ _ _ _ _ Hrow); lia|].
    split; [by rewrite length_insert|]. split; [|split].
    + intros i' r. destruct (decide (i' = i)) as [->|Hne].
      * rewrite list_lookup_insert_eq by lia. intros [= <-]. by rewrite length_insert.
      * rewrite list_lookup_insert_ne by done. apply Hct.
    + intros i' Hne. rewrite list_lookup_insert_ne by done. by apply Hframe.
    + eexists. split; [apply list_lookup_insert_eq; lia|].
      intros j' Hj'. destruct (decide (j' = j)) as [->|Hne].
      * rewrite list_lookup_insert_eq by lia. f_equal.
        rewrite Htake, lev_snoc. unfold min3, cost.
        repeat case_decide; try congruence; lia.
      * rewrite list_lookup_insert_ne by done. apply Hcells. lia.
  - exists tab1. split; [exact Htab1|]. split; [done|done|].
    intros i' Hi'. rewrite length_app in Hi'. simpl in Hi'.
    destruct (decide (i' = i)) as [->|Hne].
    + rewrite Hrow. f_equal. rewrite take_ge by (rewrite length_app; simpl; lia).
      apply lev_row_intro; [by apply (Hc1 i)|].
      intros j Hj. apply Hcells. fold n in Hj. lia.
    + rewrite Hframe by done. rewrite take_app_le by (unfold i in Hne; lia).
      apply Hp. unfold i in Hne. lia.
Qed.

Lemma foldl_min_le (ys : list Z) :
  ∀ y, (foldl Z.min y ys ≤ y)%Z ∧ ∀ j x, ys !! j = Some x → (foldl Z.min y ys ≤ x)%Z.
Proof.
  induction ys as [|z ys IH]; intros y.
  - split; [simpl; lia|]. intros j x Hj. by destruct j.
  - cbn [foldl]. destruct (IH (Z.min y z)) as [H1 H2]. split; [lia|].
    intros [|j] x Hj.
    + injection Hj as ->. lia.
    + by apply (H2 j).
Qed.

(** [min(row)] is below every cell of the row. *)
Lemma list_min_le (row : list Z) m j x :
  list_min row = Some m → row !! j = Some x → (m ≤ x)%Z.
Proof.
  destruct row as [|y ys]; [done|]. intros [= <-].
  destruct (foldl_min_le ys y) as [H1 H2]. destruct j as [|j].
  - by intros [= <-].
  - apply H2.
Qed.

(** The smallest value of a well-formed row. *)
Lemma list_min_lev_row p query :
  list_min (lev_row p query) = Some (row_min p query).
Proof.
  unfold row_min. pose proof (lev_row_length p query) as Hlen.
  destruct (lev_row p query); [simpl in Hlen; lia|done].
Qed.

End table_facts.

(** ** The plain trie search *)

Section trie_facts.
Local Open Scope nat_scope.

Lemma node_ind (P : node → Prop) :
  (∀ cs, Forall (λ e, P (snd e)) cs → P (Node cs)) → ∀ nd, P nd.
Proof.
  intros Hnode. fix IH 1. intros [cs]. apply Hnode.
  induction cs as [|[c child] cs IHcs]; constructor; [apply IH|apply IHcs].
Qed.

Lemma fuzzy__unfold k_fn query prefix cs i sofar (tab : table) :
  Trie.fuzzy_ k_fn query prefix (Node cs) i sofar tab
  = if prefix && bool_decide (length query + 1 ≤ i) then
      d ← get2 tab (i - 1) (length query);
      Some (if bool_decide (d ≤ k_fn i)%Z then Trie.traverse d (Node cs) sofar else [], tab)
    else if bool_decide (length tab ≤ i) then Some ([], tab)
    else Trie.fuzzy_items (Trie.fuzzy_ k_fn query prefix) (k_fn i) query i sofar cs tab.
Proof. reflexivity. Qed.

Lemma walk_unfold k query rows cs sofar :
  walk k query rows (Node cs) sofar
  = if bool_decide (rows ≤ length sofar + 1) then []
    else flat_map (walk_item k query sofar (walk k query rows)) cs.
Proof. reflexivity. Qed.

(** The item loop against the distances, given that the calls it makes on
    the children do what [below] says and leave the rows of the path as they
    found them. *)
Lemma fuzzy_items_walk descend_into below k query rows sofar (cs : list (ascii * node)) :
  length sofar + 1 < rows →
  Forall (λ e, ∀ tab1,
    table_ok query rows (sofar ++ [fst e]) tab1 →
    ∃ tab2, descend_into (snd e) (length sofar + 1 + 1) (sofar ++ [fst e]) tab1
            = Some (below (snd e) (sofar ++ [fst e]), tab2)
          ∧ table_ok query rows (sofar ++ [fst e]) tab2) cs →
  ∀ tab, table_ok query rows sofar tab →
  ∃ tab', Trie.fuzzy_items descend_into k query (length sofar + 1) sofar cs tab
          = Some (flat_map (walk_item k query sofar below) cs, tab')
        ∧ table_ok query rows sofar tab'.
Proof.
  intros Hi Hcs. induction Hcs as [|[c child] cs Hchild _ IH]; intros tab Htab.
  { exists tab. by split. }
  cbn [fst snd] in Hchild.
  cbn [Trie.fuzzy_items flat_map].
  rewrite Nat.add_sub, (table_ok_get2 _ _ _ _ _ Htab (le_n _)), firstn_all.
  cbn [mbind option_bind]. unfold walk_item at 1. cbn [fst snd].
  destruct (bool_decide (c = NUL) && bool_decide (Z.of_nat (lev sofar query) ≤ k)%Z).
  - destruct (IH tab Htab) as (tab' & -> & Htab'). cbn. by exists tab'.
  - destruct (fill_row_ok _ _ _ c _ Htab Hi) as (tab1 & -> & Htab1). cbn [mbind option_bind].
    pose proof (ok_path _ _ _ _ Htab1 (length sofar + 1)) as Hrow.
    rewrite length_app in Hrow. specialize (Hrow (le_n _)).
    rewrite take_ge in Hrow by (rewrite length_app; simpl; lia).
    rewrite Hrow. cbn [mbind option_bind]. rewrite list_min_lev_row. cbn [mbind option_bind].
    destruct (bool_decide (row_min (sofar ++ [c]) query ≤ k)%Z).
    + destruct (Hchild tab1 Htab1) as (tab2 & -> & Htab2). cbn [fst snd mbind option_bind].
      destruct (IH tab2 (table_ok_weaken _ _ _ _ _ Htab2)) as (tab' & -> & Htab').
      cbn. by exists tab'.
    + destruct (IH tab1 (table_ok_weaken _ _ _ _ _ Htab1)) as (tab' & -> & Htab').
      by exists tab'.
Qed.

(** [fuzzy_] with a constant budget and prefix mode off yields what [walk]
    says, and hands the table back with the rows of its path intact. *)
Lemma fuzzy__walk k query rows nd :
  ∀ sofar tab,
    table_ok query rows sofar tab →
    ∃ tab', Trie.fuzzy_ (λ _, k) query false nd (length sofar + 1) sofar tab
            = Some (walk k query rows nd sofar, tab')
          ∧ table_ok query rows sofar tab'.
Proof.
  induction nd as [cs IH] using node_ind. intros sofar tab Htab.
  rewrite fuzzy__unfold, walk_unfold. cbn [andb].
  rewrite (ok_rows _ _ _ _ Htab).
  destruct (bool_decide_reflect (rows ≤ length sofar + 1)) as [Hle|Hlt].
  { by exists tab. }
  apply fuzzy_items_walk; [lia| |done].
  eapply Forall_impl; [exact IH|]. intros [c child] Hchild tab1 Htab1. cbn [fst snd] in *.
  specialize (Hchild (sofar ++ [c]) tab1 Htab1).
  rewrite length_app in Hchild. exact Hchild.
Qed.

(** The whole call. *)
Lemma fuzzy_walk root query k :
  (0 ≤ k)%Z →
  Trie.fuzzy root query k
  = Some (walk k query (Z.to_nat (Z.of_nat (length query) + k + 1)) root []).
Proof.
  intros Hk. unfold Trie.fuzzy, Trie.fuzzy_with.
  destruct (new_table_ok query k Hk) as (tab & -> & Htab). cbn [mbind option_bind default].
  destruct (fuzzy__walk k query _ root [] tab Htab) as (tab' & Heq & _).
  cbn [length Nat.add] in Heq. by rewrite Heq.
Qed.

(** Every yielded pair carries the distance of its word to the query, within
    budget; the word extends the path and is shorter than the table is deep. *)
Lemma walk_sound k query rows nd :
  ∀ sofar x d,
    In (x, d) (walk k query rows nd sofar) →
    d = Z.of_nat (lev x query) ∧ (d ≤ k)%Z
    ∧ (∃ s, x = sofar ++ s) ∧ length x + 1 < rows.
Proof.
  induction nd as [cs IH] using node_ind. intros sofar x d Hin.
  rewrite walk_unfold in Hin. case_bool_decide as Hrows; [done|].
  apply in_flat_map in Hin as ([c child] & Hc & Hin).
  rewrite Forall_forall in IH. specialize (IH _ (proj2 (list_elem_of_In _ _) Hc)).
  unfold walk_item in Hin. cbn [fst snd] in *.
  destruct (bool_decide (c = NUL) && bool_decide (Z.of_nat (lev sofar query) ≤ k)%Z) eqn:E.
  - destruct Hin as [[= <- <-]|[]].
    apply andb_true_iff in E as [_ E%bool_decide_eq_true].
    repeat split; [done| |lia]. exists []. by rewrite app_nil_r.
  - destruct (bool_decide (row_min _ _ ≤ k)%Z); [|done].
    destruct (IH _ _ _ Hin) as (? & ? & [s ->] & ?).
    repeat split; [done..| |done]. exists (c :: s). by rewrite <- app_assoc.
Qed.

(** Which item of a node a yielded word came through can be read off the
    word. *)
Lemma walk_item_word k query rows sofar e x d :
  In (x, d) (walk_item k query sofar (walk k query rows) e) →
  (fst e = NUL ∧ x = sofar) ∨ ∃ s, x = sofar ++ fst e :: s.
Proof.
  unfold walk_item. destruct e as [c child]. cbn [fst snd].
  destruct (bool_decide (c = NUL) && _) eqn:E.
  - intros [[= <- <-]|[]]. left.
    by apply andb_true_iff in E as [E%bool_decide_eq_true _].
  - destruct (bool_decide (row_min _ _ ≤ k)%Z); [|by intros []].
    intros (_ & _ & [s ->] & _)%walk_sound.
    right. exists s. by rewrite <- app_assoc.
Qed.

(** No word is yielded twice when the keys of every node are distinct. *)
Lemma walk_NoDup k query rows nd :
  uniq_keys nd = true → ∀ sofar, NoDup (map fst (walk k query rows nd sofar)).
Proof.
  induction nd as [cs IH] using node_ind. intros Hu sofar.
  rewrite walk_unfold. case_bool_decide; [constructor|].
  cbn [uniq_keys] in Hu. apply andb_true_iff in Hu as [Hkeys%bool_decide_eq_true Hu].
  induction cs as [|[c child] cs IHcs]; [constructor|].
  cbn [flat_map]. rewrite map_app. cbn [map fst forallb] in *.
  apply NoDup_cons in Hkeys as [Hc Hkeys]. apply andb_true_iff in Hu as [Huc Hu].
  apply Forall_cons in IH as [IHc IH]. cbn [snd] in IHc.
  apply NoDup_app. split; [|split].
  - unfold walk_item. cbn [fst snd].
    destruct (_ && _); [apply NoDup_singleton|]. case_bool_decide; [by apply IHc|constructor].
  - intros x [[x' d] [<- Hin1]]%list_elem_of_In%in_map_iff [[x'' d'] [E Hin2]]%list_elem_of_In%in_map_iff.
    cbn [fst] in E. subst x''.
    apply in_flat_map in Hin2 as ([c' child'] & Hc' & Hin2).
    apply walk_item_word in Hin1, Hin2. cbn [fst] in *.
    assert (c = c') as <-.
    { destruct Hin1 as [[-> ->]|[s ->]], Hin2 as [[-> E]|[s' E]]; try done.
      - apply (f_equal length) in E. rewrite length_app in E. simpl in E. lia.
      - apply (f_equal length) in E. rewrite length_app in E. simpl in E. lia.
      - by apply app_inv_head in E as [= -> _]. }
    apply Hc, list_elem_of_In, in_map_iff. by exists (c, child').
  - by apply IHcs.
Qed.

(** A larger budget (and the deeper table that comes with it) loses nothing,
    provided nothing hangs below a terminator. *)
Lemma walk_mono k k' query rows rows' nd :
  (k ≤ k')%Z → rows ≤ rows' → well_marked nd = true →
  ∀ sofar r, In r (walk k query rows nd sofar) → In r (walk k' query rows' nd sofar).
Proof.
  intros Hk Hrows. induction nd as [cs IH] using node_ind. intros Hm sofar r.
  rewrite !walk_unfold. repeat case_bool_decide; try done; try lia.
  rewrite !in_flat_map. intros ([c child] & Hc & Hin). exists (c, child). split; [done|].
  cbn [well_marked] in Hm. rewrite forallb_forall in Hm. specialize (Hm _ Hc).
  apply andb_true_iff in Hm as [Hleaf Hm]. cbn [fst snd] in *.
  rewrite Forall_forall in IH. specialize (IH _ (proj2 (list_elem_of_In _ _) Hc) Hm).
  unfold walk_item in *. cbn [fst snd] in *.
  destruct (bool_decide_reflect (c = NUL)) as [->|Hne]; cbn [andb] in *.
  - assert (walk k query rows child (sofar ++ [NUL]) = []) as Hnil.
    { destruct child as [[|??]]; [|done]. rewrite walk_unfold.
      by destruct (bool_decide (rows ≤ _)). }
    rewrite Hnil in Hin.
    destruct (bool_decide_reflect (Z.of_nat (lev sofar query) ≤ k)%Z).
    + rewrite bool_decide_eq_true_2 by lia. done.
    + by destruct (bool_decide (row_min _ _ ≤ k)%Z).
  - destruct (bool_decide_reflect (row_min (sofar ++ [c]) query ≤ k)%Z); [|done].
    rewrite bool_decide_eq_true_2 by lia. by apply IH.
Qed.

(** *** Tries built by [insert] *)

Lemma descend_Forall (P : ascii * node → Prop) c f cs :
  Forall P cs → (∀ child, P (c, child) → P (c, f child)) → P (c, f (Node [])) →
  Forall P (Trie.descend c f cs).
Proof.
  intros Hcs Hold Hnew. induction Hcs as [|[c' child] cs Hx Hcs IH]; simpl.
  - by constructor.
  - case_decide; subst; constructor; auto.
Qed.

Lemma descend_keys c f cs x :
  In x (map fst (Trie.descend c f cs)) → In x (map fst cs) ∨ x = c.
Proof.
  induction cs as [|[c' child] cs IH]; simpl.
  - intros [<-|[]]. by right.
  - case_decide; simpl; [tauto|]. intros [<-|Hin]; [tauto|]. destruct (IH Hin); tauto.
Qed.

Lemma descend_NoDup c f cs :
  NoDup (map fst cs) → NoDup (map fst (Trie.descend c f cs)).
Proof.
  induction cs as [|[c' child] cs IH]; simpl.
  - intros _. apply NoDup_singleton.
  - intros [Hc Hcs]%NoDup_cons. case_decide; simpl; apply NoDup_cons.
    + done.
    + split; [|by apply IH]. rewrite list_elem_of_In in *.
      intros [?|?]%descend_keys; [done|by subst].
Qed.

Lemma insert_path_uniq p : ∀ nd, uniq_keys nd = true → uniq_keys (Trie.insert_path p nd) = true.
Proof.
  induction p as [|c p IH]; intros [cs] Hu; [done|].
  cbn [Trie.insert_path items uniq_keys] in *.
  apply andb_true_iff in Hu as [Hkeys%bool_decide_eq_true Hu].
  apply andb_true_iff. split.
  - apply bool_decide_eq_true. by apply descend_NoDup.
  - apply forallb_forall. intros e He%list_elem_of_In. revert e He. apply Forall_forall.
    apply descend_Forall; cbn [snd]; [|by auto..].
    apply Forall_forall. intros e He%list_elem_of_In.
    by apply (proj1 (forallb_forall _ _) Hu).
Qed.

Lemma insert_uniq x nd : uniq_keys nd = true → uniq_keys (Trie.insert x nd) = true.
Proof. apply insert_path_uniq. Qed.

Lemma build_uniq ws : uniq_keys (Trie.build ws) = true.
Proof.
  unfold Trie.build. generalize (eq_refl : uniq_keys (Node []) = true).
  generalize (Node []). induction ws as [|x ws IH]; intros t Ht; [done|].
  simpl. by apply IH, insert_uniq.
Qed.

Lemma insert_well_marked x :
  term_free x → ∀ nd, well_marked nd = true → well_marked (Trie.insert x nd) = true.
Proof.
  unfold Trie.insert, term_free.
  induction x as [|c x IH]; intros Hfree [cs] Hm;
    cbn [app Trie.insert_path items well_marked] in *.
  - apply forallb_forall. intros e He%list_elem_of_In. revert e He. apply Forall_forall.
    apply descend_Forall; [|done..].
    apply Forall_forall. intros e He%list_elem_of_In.
    by apply (proj1 (forallb_forall _ _) Hm).
  - apply not_elem_of_cons in Hfree as [Hc Hfree].
    apply forallb_forall. intros e He%list_elem_of_In. revert e He. apply Forall_forall.
    apply descend_Forall; cbn [fst snd].
    + apply Forall_forall. intros e He%list_elem_of_In.
      by apply (proj1 (forallb_forall _ _) Hm).
    + intros child [_ Hchild]%andb_true_iff. rewrite bool_decide_eq_false_2 by done.
      by apply IH.
    + rewrite bool_decide_eq_false_2 by done. by apply IH.
Qed.

Lemma build_well_marked ws : Forall term_free ws → well_marked (Trie.build ws) = true.
Proof.
  unfold Trie.build. generalize (eq_refl : well_marked (Node []) = true).
  generalize (Node []). intros t Ht Hws. revert t Ht.
  induction Hws as [|x ws Hx _ IH]; intros t Ht; [done|].
  simpl. by apply IH, insert_well_marked.
Qed.

End trie_facts.

(** ** The forward/backward search *)

Section fbtrie_facts.
Local Open Scope nat_scope.

(** *** Sorting the items does not touch the children *)

Lemma place_map {X Y : Type} (g : X → Y) (e : ascii * X) (l : list (ascii * X)) :
  FBTrie.place (fst e, g (snd e)) (map (λ e, (fst e, g (snd e))) l)
  = map (λ e, (fst e, g (snd e))) (FBTrie.place e l).
Proof.
  induction l as [|e' l IH]; [done|]. cbn [map FBTrie.place fst].
  destruct (bool_decide (ord (fst e') < ord (fst e))%N); cbn [map]; [|done].
  by rewrite IH.
Qed.

Lemma sorted_items_map {X Y : Type} (g : X → Y) (l : list (ascii * X)) :
  FBTrie.sorted_items (map (λ e, (fst e, g (snd e))) l)
  = map (λ e, (fst e, g (snd e))) (FBTrie.sorted_items l).
Proof.
  induction l as [|e l IH]; [done|].
  cbn [map FBTrie.sorted_items foldr]. fold (FBTrie.sorted_items l).
  fold (FBTrie.sorted_items (map (λ e, (fst e, g (snd e))) l)).
  by rewrite IH, place_map.
Qed.

Lemma place_In {X : Type} (e x : ascii * X) l :
  In x (FBTrie.place e l) ↔ x = e ∨ In x l.
Proof.
  induction l as [|e' l IH]; simpl; [intuition congruence|].
  destruct (bool_decide _); simpl; [rewrite IH|]; intuition congruence.
Qed.

Lemma sorted_items_In {X : Type} (x : ascii * X) l :
  In x (FBTrie.sorted_items l) ↔ In x l.
Proof.
  induction l as [|e l IH]; [done|].
  cbn [FBTrie.sorted_items foldr]. fold (FBTrie.sorted_items l).
  rewrite place_In, IH. simpl. intuition congruence.
Qed.

Lemma sorted_items_elem_of {X : Type} (x : ascii * X) l :
  x ∈ FBTrie.sorted_items l → x ∈ l.
Proof. rewrite !list_elem_of_In. apply sorted_items_In. Qed.

Lemma trie_fuzzy_items_map {X : Type}
    (g : X → Z → nat → nat → word → table → option (results * table))
    subk k subq query phase i sofar (l : list (ascii * X)) :
  ∀ tab,
    FBTrie.trie_fuzzy_items (λ walk, walk) subk k subq query phase i sofar
      (map (λ e, (fst e, g (snd e))) l) tab
    = FBTrie.trie_fuzzy_items g subk k subq query phase i sofar l tab.
Proof.
  induction l as [|[c child] l IH]; intros tab; [done|].
  cbn [map FBTrie.trie_fuzzy_items fst snd].
  destruct (get2 tab (i - 1) (length query)) as [d|]; [|done]. cbn [mbind option_bind].
  destruct (bool_decide (c = NUL) && bool_decide (d ≤ k)%Z); [by rewrite IH|].
  destruct (fill_row c query i tab) as [tab1|]; [|done]. cbn [mbind option_bind].
  destruct (FBTrie.verdict_at subk k subq phase i tab1) as [[subk' phase'|]|]; [| |done];
    cbn [mbind option_bind]; [|by rewrite IH].
  destruct (g child subk' phase' (i + 1) (sofar ++ [c]) tab1) as [[out1 tab2]|]; [|done].
  cbn [mbind option_bind]. by rewrite IH.
Qed.

(** [trie_fuzzy_] in the shape of the source: the loop runs over the sorted
    items and calls [trie_fuzzy_] on the children. *)
Lemma trie_fuzzy__unfold k subq query cs subk phase i sofar (tab : table) :
  FBTrie.trie_fuzzy_ k subq query (Node cs) subk phase i sofar tab
  = if bool_decide (length tab ≤ i) then Some ([], tab)
    else FBTrie.trie_fuzzy_items (FBTrie.trie_fuzzy_ k subq query)
           subk k subq query phase i sofar (FBTrie.sorted_items cs) tab.
Proof.
  cbn [FBTrie.trie_fuzzy_]. destruct (bool_decide (length tab ≤ i)); [done|].
  by rewrite (sorted_items_map (FBTrie.trie_fuzzy_ k subq query)), trie_fuzzy_items_map.
Qed.

(** *** The verdict on a computed row *)

Lemma verdict_at_row subk k subq phase i (tab : table) row col smallest :
  tab !! i = Some row → row !! length subq = Some col → list_min row = Some smallest →
  FBTrie.verdict_at subk k subq phase i tab
  = Some (if bool_decide (phase = 1) && bool_decide (col ≤ subk)%Z then Descend k 2
          else if bool_decide (smallest ≤ subk)%Z then Descend subk phase
          else Prune).
Proof.
  intros Hrow Hcol Hmin. unfold FBTrie.verdict_at.
  rewrite (get2_row _ _ _ _ Hrow), Hcol, Hrow. cbn [mbind option_bind].
  rewrite Hmin. cbn [mbind option_bind].
  destruct (bool_decide (phase = 1)); cbn [mbind option_bind andb]; [|done].
  by destruct (bool_decide (col ≤ subk)%Z).
Qed.

(** *** Soundness and termination of the walk *)

Lemma sound_app k query rows out1 out2 :
  sound k query rows out1 → sound k query rows out2 → sound k query rows (out1 ++ out2).
Proof. intros H1 H2 x d [?|?]%in_app_iff; auto. Qed.

Lemma trie_fuzzy_items_ok {X : Type}
    (descend_into : X → Z → nat → nat → word → table → option (results * table))
    subk k subq query rows phase sofar (cs : list (ascii * X)) :
  length sofar + 1 < rows → length subq ≤ length query →
  Forall (λ e, ∀ subk' phase' tab1,
    table_ok query rows (sofar ++ [fst e]) tab1 →
    ∃ out tab2,
      descend_into (snd e) subk' phase' (length sofar + 1 + 1) (sofar ++ [fst e]) tab1
      = Some (out, tab2)
      ∧ table_ok query rows (sofar ++ [fst e]) tab2 ∧ sound k query rows out) cs →
  ∀ tab, table_ok query rows sofar tab →
  ∃ out tab',
    FBTrie.trie_fuzzy_items descend_into subk k subq query phase
      (length sofar + 1) sofar cs tab = Some (out, tab')
    ∧ table_ok query rows sofar tab' ∧ sound k query rows out.
Proof.
  intros Hi Hsubq Hcs. induction Hcs as [|[c child] cs Hchild _ IH]; intros tab Htab.
  { exists [], tab. split; [done|]. split; [done|]. intros ?? []. }
  cbn [fst snd] in Hchild. cbn [FBTrie.trie_fuzzy_items].
  rewrite Nat.add_sub, (table_ok_get2 _ _ _ _ _ Htab (le_n _)), firstn_all.
  cbn [mbind option_bind].
  destruct (bool_decide (c = NUL) && bool_decide (Z.of_nat (lev sofar query) ≤ k)%Z) eqn:E.
  - destruct (IH tab Htab) as (out & tab' & -> & Htab' & Hout). cbn.
    exists ((sofar, Z.of_nat (lev sofar query)) :: out), tab'.
    split; [done|]. split; [done|]. intros x d [[= <- <-]|Hin]; [|by apply Hout].
    apply andb_true_iff in E as [_ E%bool_decide_eq_true]. split; [done|]. split; [done|lia].
  - destruct (fill_row_ok _ _ _ c _ Htab Hi) as (tab1 & -> & Htab1). cbn [mbind option_bind].
    pose proof (ok_path _ _ _ _ Htab1 (length sofar + 1)) as Hrow.
    rewrite length_app in Hrow. specialize (Hrow (le_n _)).
    rewrite take_ge in Hrow by (rewrite length_app; simpl; lia).
    rewrite (verdict_at_row _ _ _ _ _ _ _ _ _ Hrow (lev_row_lookup _ _ _ Hsubq)
               (list_min_lev_row _ _)).
    cbn [mbind option_bind].
    set (v := if _ && _ then Descend k 2 else _). clearbody v.
    destruct v as [subk' phase'|].
    + destruct (Hchild subk' phase' tab1 Htab1) as (out1 & tab2 & -> & Htab2 & Hout1).
      cbn [mbind option_bind].
      destruct (IH tab2 (table_ok_weaken _ _ _ _ _ Htab2)) as (out & tab' & -> & Htab' & Hout).
      cbn. exists (out1 ++ out), tab'. split; [done|]. split; [done|]. by apply sound_app.
    + destruct (IH tab1 (table_ok_weaken _ _ _ _ _ Htab1)) as (out & tab' & -> & Htab' & Hout).
      by exists out, tab'.
Qed.

Lemma trie_fuzzy__ok k subq query rows nd :
  length subq ≤ length query →
  ∀ subk phase sofar tab,
    table_ok query rows sofar tab →
    ∃ out tab',
      FBTrie.trie_fuzzy_ k subq query nd subk phase (length sofar + 1) sofar tab
      = Some (out, tab')
      ∧ table_ok query rows sofar tab' ∧ sound k query rows out.
Proof.
  intros Hsubq. induction nd as [cs IH] using node_ind. intros subk phase sofar tab Htab.
  rewrite trie_fuzzy__unfold, (ok_rows _ _ _ _ Htab).
  destruct (bool_decide_reflect (rows ≤ length sofar + 1)) as [Hle|Hlt].
  { exists [], tab. split; [done|]. split; [done|]. intros ?? []. }
  apply (trie_fuzzy_items_ok _ _ _ _ _ rows); [lia|done| |done].
  apply Forall_forall. intros [c child] Hc%sorted_items_elem_of.
  rewrite Forall_forall in IH. specialize (IH _ Hc). cbn [fst snd] in *.
  intros subk' phase' tab1 Htab1.
  specialize (IH subk' phase' (sofar ++ [c]) tab1 Htab1).
  rewrite length_app in IH. exact IH.
Qed.

Lemma trie_fuzzy_ok root subk k subq query :
  (0 ≤ k)%Z → length subq ≤ length query →
  ∃ out, FBTrie.trie_fuzzy root subk k subq query = Some out
         ∧ sound k query (Z.to_nat (Z.of_nat (length query) + k + 1)) out.
Proof.
  intros Hk Hsubq. unfold FBTrie.trie_fuzzy.
  destruct (new_table_ok query k Hk) as (tab & -> & Htab). cbn [mbind option_bind].
  destruct (trie_fuzzy__ok k subq query _ root Hsubq subk 1 [] tab Htab)
    as (out & tab' & Heq & _ & Hout).
  cbn [length Nat.add] in Heq. rewrite Heq. by exists out.
Qed.

(** Both phases together: every pair carries the distance to the query (the
    backward phase by [lev_reverse]). *)
Lemma fb_fuzzy_ok fb query k :
  (0 ≤ k)%Z →
  ∃ out, FBTrie.fuzzy fb query k = Some out
         ∧ sound k query (Z.to_nat (Z.of_nat (length query) + k + 1)) out.
Proof.
  intros Hk. unfold FBTrie.fuzzy.
  destruct (trie_fuzzy_ok (FBTrie.f fb) (FBTrie.k1 k) k
              (take (length query / 2) query) query Hk) as (out_f & -> & Hf).
  { rewrite length_take. lia. }
  destruct (trie_fuzzy_ok (FBTrie.b fb) (FBTrie.k2 k) k
              (reverse (drop (length query / 2) query)) (reverse query) Hk)
    as (out_b & -> & Hb).
  { rewrite !length_reverse, length_drop. lia. }
  cbn [mbind option_bind]. eexists. split; [done|].
  apply sound_app; [done|]. intros x d [[x' d'] [[= <- <-] Hin]]%in_map_iff.
  destruct (Hb _ _ Hin) as (-> & ? & Hlen). rewrite length_reverse in Hlen.
  cbn [fst snd]. rewrite length_reverse.
  rewrite <- (lev_reverse (reverse x') query), reverse_involutive. done.
Qed.

(** *** Phase 2 never looks at the half query again *)

Lemma verdict_at_phase2 subk k subq subq' i (tab : table) :
  FBTrie.verdict_at subk k subq 2 i tab = FBTrie.verdict_at subk k subq' 2 i tab
  ∧ ∀ v, FBTrie.verdict_at subk k subq 2 i tab = Some v → v = Descend subk 2 ∨ v = Prune.
Proof.
  unfold FBTrie.verdict_at. cbn. split; [done|].
  destruct (tab !! i) as [row|]; [|done]. cbn.
  destruct (list_min row) as [m|]; [|done]. cbn.
  intros v [= <-]. destruct (bool_decide (m ≤ subk)%Z); auto.
Qed.

Lemma trie_fuzzy__phase2 k subq subq' query nd :
  ∀ i sofar tab,
    FBTrie.trie_fuzzy_ k subq query nd k 2 i sofar tab
    = FBTrie.trie_fuzzy_ k subq' query nd k 2 i sofar tab.
Proof.
  induction nd as [cs IH] using node_ind. intros i sofar tab.
  rewrite !trie_fuzzy__unfold. destruct (bool_decide (length tab ≤ i)); [done|].
  assert (Forall (λ e, ∀ i sofar tab,
            FBTrie.trie_fuzzy_ k subq query (snd e) k 2 i sofar tab
            = FBTrie.trie_fuzzy_ k subq' query (snd e) k 2 i sofar tab)
          (FBTrie.sorted_items cs)) as IH'.
  { apply Forall_forall. intros e He%sorted_items_elem_of.
    rewrite Forall_forall in IH. by apply IH. }
  clear IH. revert tab.
  induction IH' as [|[c child] l Hchild _ IHl]; intros tab; [done|].
  cbn [FBTrie.trie_fuzzy_items snd] in *.
  destruct (get2 tab (i - 1) (length query)) as [d|]; [|done]. cbn [mbind option_bind].
  destruct (bool_decide (c = NUL) && bool_decide (d ≤ k)%Z); [by rewrite IHl|].
  destruct (fill_row c query i tab) as [tab1|]; [|done]. cbn [mbind option_bind].
  destruct (verdict_at_phase2 k k subq subq' i tab1) as [<- Hv].
  destruct (FBTrie.verdict_at k k subq 2 i tab1) as [v|]; [|done].
  destruct (Hv v eq_refl) as [->| ->]; cbn [mbind option_bind]; [|by rewrite IHl].
  rewrite Hchild.
  destruct (FBTrie.trie_fuzzy_ k subq' query child k 2 (i + 1) (sofar ++ [c]) tab1)
    as [[out1 tab2]|]; [|done].
  cbn [mbind option_bind]. by rewrite IHl.
Qed.

End fbtrie_facts.

(** ** The table along the run *)

Section run_facts.
Local Open Scope nat_scope.

(** The loop over a list of items is the loop over its first part followed,
    on the table that one leaves, by the loop over the rest. *)
Lemma fuzzy_items_app {X : Type} (descend_into : X → nat → word → table → option (results * table))
    k query i sofar (before rest : list (ascii * X)) :
  ∀ tab,
    Trie.fuzzy_items descend_into k query i sofar (before ++ rest) tab
    = '(out, tab0) ← Trie.fuzzy_items descend_into k query i sofar before tab;
      '(out', tab') ← Trie.fuzzy_items descend_into k query i sofar rest tab0;
      Some (out ++ out', tab').
Proof.
  induction before as [|[c child] before IH]; intros tab.
  { cbn. by destruct (Trie.fuzzy_items _ _ _ _ _ rest tab) as [[??]|]. }
  cbn [app Trie.fuzzy_items].
  destruct (get2 tab (i - 1) (length query)) as [d|]; [|done]. cbn [mbind option_bind].
  destruct (bool_decide (c = NUL) && bool_decide (d ≤ k)%Z).
  - rewrite IH. destruct (Trie.fuzzy_items _ _ _ _ _ before tab) as [[out tab0]|]; [|done].
    cbn. by destruct (Trie.fuzzy_items _ _ _ _ _ rest tab0) as [[??]|].
  - destruct (fill_row c query i tab) as [tab1|]; [|done]. cbn [mbind option_bind].
    destruct (tab1 !! i) as [row|]; [|done]. cbn [mbind option_bind].
    destruct (list_min row) as [m|]; [|done]. cbn [mbind option_bind].
    destruct (bool_decide (m ≤ k)%Z); [|by rewrite IH].
    destruct (descend_into child (i + 1) (sofar ++ [c]) tab1) as [[out1 tab2]|]; [|done].
    cbn [mbind option_bind]. rewrite IH.
    destruct (Trie.fuzzy_items _ _ _ _ _ before tab2) as [[out tab0]|]; [|done].
    cbn. destruct (Trie.fuzzy_items _ _ _ _ _ rest tab0) as [[??]|]; [|done].
    cbn. by rewrite app_assoc.
Qed.

(** One recursive call keeps the table exact for the longer path. *)
Lemma makes_table_ok k query rows st st' :
  makes k query st st' →
  table_ok query rows (call_sofar st) (call_tab st) →
  call_i st = length (call_sofar st) + 1 →
  table_ok query rows (call_sofar st') (call_tab st')
  ∧ call_i st' = length (call_sofar st') + 1.
Proof.
  intros [cs i sofar tab before c child after out tab0 d tab1 row m
            Hi -> Hloop _ _ Hfill _ _ _]. cbn [call_sofar call_tab call_i].
  intros Htab ->. rewrite length_app. split; [|done].
  rewrite (ok_rows _ _ _ _ Htab) in Hi.
  destruct (fuzzy_items_walk (Trie.fuzzy_ (λ _, k) query false) (walk k query rows)
              k query rows sofar before) with (tab := tab) as (tab0' & Heq & Htab0);
    [done| |done|].
  { apply Forall_forall. intros [c' child'] _ t1 Ht1. cbn [fst snd].
    destruct (fuzzy__walk k query rows child' _ _ Ht1) as (t2 & Ht2 & ?).
    rewrite length_app in Ht2. by exists t2. }
  rewrite Hloop in Heq. injection Heq as _ <-.
  destruct (fill_row_ok query rows sofar c tab0 Htab0 Hi) as (tab1' & Heq & Htab1).
  rewrite Hfill in Heq. by injection Heq as <-.
Qed.

Lemma run_table_ok k query rows st st' :
  rtc (makes k query) st st' →
  table_ok query rows (call_sofar st) (call_tab st) →
  call_i st = length (call_sofar st) + 1 →
  table_ok query rows (call_sofar st') (call_tab st')
  ∧ call_i st' = length (call_sofar st') + 1.
Proof.
  induction 1 as [st|st st' st'' Hstep _ IH]; intros Htab Hi; [done|].
  destruct (makes_table_ok _ _ _ _ _ Hstep Htab Hi). by apply IH.
Qed.

Lemma reached_table_ok k query root st :
  (0 ≤ k)%Z → reached k query root st →
  table_ok query (Z.to_nat (Z.of_nat (length query) + k + 1)) (call_sofar st) (call_tab st)
  ∧ call_i st = length (call_sofar st) + 1.
Proof.
  intros Hk (tab & Hnew & Hrun).
  destruct (new_table_ok query k Hk) as (tab' & Heq & Htab).
  rewrite Hnew in Heq. injection Heq as <-.
  by apply (run_table_ok _ _ _ _ _ Hrun).
Qed.

End run_facts.

(** ** What the plain search yields, exactly *)

Section exact_facts.
Local Open Scope nat_scope.

Lemma descend_In_inv c f cs c' x :
  In (c', x) (Trie.descend c f cs) →
  In (c', x) cs ∨ (c' = c ∧ ∃ child, (In (c, child) cs ∨ child = Node []) ∧ x = f child).
Proof.
  induction cs as [|[c0 child0] cs IH]; simpl.
  - intros [[= <- <-]|[]]. right. split; [done|]. exists (Node []). auto.
  - case_decide as Hc; simpl.
    + subst c0. intros [[= <- <-]|Hin]; [|tauto]. right. split; [done|]. exists child0. auto.
    + intros [Heq|Hin]; [tauto|]. destruct (IH Hin) as [?|(-> & child & [?|?] & ->)]; [tauto|..].
      * right. split; [done|]. exists child. auto.
      * right. split; [done|]. exists child. auto.
Qed.

Lemma descend_In_old c f cs c' x :
  In (c', x) cs →
  In (c', x) (Trie.descend c f cs) ∨ (c' = c ∧ In (c, f x) (Trie.descend c f cs)).
Proof.
  induction cs as [|[c0 child0] cs IH]; simpl; [done|].
  intros [[= -> ->]|Hin].
  - case_decide; simpl; [subst|]; auto.
  - case_decide; simpl; [tauto|]. destruct (IH Hin) as [?|[-> ?]]; auto.
Qed.

Lemma descend_In_new c f cs : ∃ child, In (c, f child) (Trie.descend c f cs).
Proof.
  induction cs as [|[c0 child0] cs [child IH]]; simpl.
  - exists (Node []). auto.
  - case_decide; simpl; [subst; exists child0|exists child]; auto.
Qed.

(** Inserting adds the prefixes of the inserted path and nothing else. *)
Lemma has_path_insert_path p :
  ∀ nd p', has_path p' (Trie.insert_path p nd) ↔ has_path p' nd ∨ p' `prefix_of` p.
Proof.
  induction p as [|c p IH]; intros [cs] p'.
  - simpl. split; [tauto|]. intros [?|Hpre]; [done|].
    by apply prefix_nil_inv in Hpre as ->.
  - destruct p' as [|c' p'].
    { simpl. split; [tauto|done]. }
    cbn [Trie.insert_path items has_path]. split.
    + intros (x & Hin & Hx).
      apply descend_In_inv in Hin as [Hin|(-> & child & Hchild & ->)].
      { left. by exists x. }
      apply IH in Hx as [Hx|Hpre]; [|right; by apply prefix_cons].
      destruct Hchild as [Hin| ->]; [left; by exists child|].
      destruct p' as [|c'' p']; [|by destruct Hx as (? & [] & _)].
      right. apply prefix_cons, prefix_nil.
    + intros [(x & Hin & Hx)|Hpre].
      * destruct (descend_In_old c (Trie.insert_path p) cs _ _ Hin) as [?|[-> ?]].
        -- by exists x.
        -- exists (Trie.insert_path p x). split; [done|]. apply IH. by left.
      * pose proof (prefix_cons_inv_1 _ _ _ _ Hpre) as ->.
        apply prefix_cons_inv_2 in Hpre.
        destruct (descend_In_new c (Trie.insert_path p) cs) as [child Hin].
        exists (Trie.insert_path p child). split; [done|]. apply IH. by right.
Qed.

Lemma has_path_foldl ws p' :
  ∀ t, has_path p' (foldl (λ t x, Trie.insert x t) t ws)
       ↔ has_path p' t ∨ ∃ x, In x ws ∧ p' `prefix_of` (x ++ [NUL]).
Proof.
  induction ws as [|x ws IH]; intros t; simpl.
  - split; [tauto|]. intros [?|(? & [] & _)]. done.
  - rewrite IH. unfold Trie.insert. rewrite has_path_insert_path. split.
    + intros [[?|?]|(y & ? & ?)]; eauto 6.
    + intros [?|(y & [<-|?] & ?)]; eauto 6.
Qed.

Lemma prefix_terminated x :
  term_free x → ∀ s, (s ++ [NUL]) `prefix_of` (x ++ [NUL]) → s = x.
Proof.
  unfold term_free. induction x as [|a x IH]; intros Hx s Hpre.
  - destruct s as [|b s]; [done|]. simpl in Hpre.
    apply prefix_cons_inv_2, prefix_nil_inv in Hpre. by destruct s.
  - apply not_elem_of_cons in Hx as [Ha Hx]. destruct s as [|b s]; simpl in Hpre.
    + by apply prefix_cons_inv_1 in Hpre.
    + pose proof (prefix_cons_inv_1 _ _ _ _ Hpre) as ->.
      apply prefix_cons_inv_2 in Hpre. f_equal. by apply IH.
Qed.

(** A trie built from terminator-free words holds exactly those words. *)
Lemma holds_build ws s :
  Forall term_free ws → holds (Trie.build ws) s ↔ In s ws.
Proof.
  intros Hws. unfold holds, Trie.build. rewrite has_path_foldl. split.
  - intros [Hp|(x & Hx & Hpre)].
    + destruct s; by destruct Hp as (? & [] & _).
    + rewrite Forall_forall in Hws.
      by rewrite (prefix_terminated x (Hws _ (proj2 (list_elem_of_In _ _) Hx)) s Hpre).
  - intros Hs. right. by exists s.
Qed.

(** Only words the trie holds are yielded. *)
Lemma walk_holds k query rows nd :
  ∀ sofar x d, In (x, d) (walk k query rows nd sofar) → ∃ s, x = sofar ++ s ∧ holds nd s.
Proof.
  induction nd as [cs IH] using node_ind. intros sofar x d Hin.
  rewrite walk_unfold in Hin. destruct (bool_decide (rows ≤ _)); [done|].
  apply in_flat_map in Hin as ([c child] & Hc & Hin).
  rewrite Forall_forall in IH. specialize (IH _ (proj2 (list_elem_of_In _ _) Hc)).
  unfold walk_item in Hin. cbn [fst snd] in *.
  destruct (bool_decide_reflect (c = NUL)) as [->|Hne]; cbn [andb] in Hin.
  - destruct (bool_decide (Z.of_nat (lev sofar query) ≤ k)%Z).
    + destruct Hin as [[= <- <-]|[]]. exists []. rewrite app_nil_r. split; [done|].
      by exists child.
    + destruct (bool_decide (row_min _ _ ≤ k)%Z); [|done].
      destruct (IH _ _ _ Hin) as (s & -> & Hs).
      exists (NUL :: s). rewrite <- app_assoc. split; [done|]. by exists child.
  - destruct (bool_decide (row_min _ _ ≤ k)%Z); [|done].
    destruct (IH _ _ _ Hin) as (s & -> & Hs).
    exists (c :: s). rewrite <- app_assoc. split; [done|]. by exists child.
Qed.

Lemma row_min_le p query j :
  j ≤ length query → (row_min p query ≤ Z.of_nat (lev p (take j query)))%Z.
Proof.
  intros Hj. apply (list_min_le (lev_row p query) _ j).
  - apply list_min_lev_row.
  - by apply lev_row_lookup.
Qed.

(** A held terminator-free word within budget is yielded, unless its
    terminator lies at or below the last level the walk enters. *)
Lemma walk_complete k query rows s :
  ∀ nd sofar,
    holds nd s → term_free s →
    (Z.of_nat (lev (sofar ++ s) query) ≤ k)%Z → length (sofar ++ s) + 1 < rows →
    In (sofar ++ s, Z.of_nat (lev (sofar ++ s) query)) (walk k query rows nd sofar).
Proof.
  unfold holds, term_free.
  induction s as [|c s IH]; intros [cs] sofar Hs Hfree Hlev Hlen;
    rewrite walk_unfold; rewrite length_app in Hlen; cbn [length] in Hlen;
    rewrite bool_decide_eq_false_2 by lia.
  - destruct Hs as (child & Hin & _). cbn [items] in Hin. rewrite app_nil_r in *.
    apply in_flat_map. exists (NUL, child). split; [done|].
    unfold walk_item. cbn [fst snd].
    rewrite !bool_decide_eq_true_2 by done. by left.
  - destruct Hs as (child & Hin & Hs). cbn [items] in Hin.
    apply not_elem_of_cons in Hfree as [Hc Hfree].
    apply in_flat_map. exists (c, child). split; [done|].
    unfold walk_item. cbn [fst snd].
    rewrite (bool_decide_eq_false_2 (c = NUL)) by done. cbn [andb].
    replace (sofar ++ c :: s) with ((sofar ++ [c]) ++ s) in * by by rewrite <- app_assoc.
    destruct (lev_prefix (sofar ++ [c]) s query) as (j & Hj & Hle).
    pose proof (row_min_le (sofar ++ [c]) query j Hj).
    rewrite bool_decide_eq_true_2 by lia.
    apply IH; [done..|]. rewrite !length_app. simpl. lia.
Qed.

(** [Trie.fuzzy] on a trie built from terminator-free words: the words of
    the dictionary within distance [k] of the query that are shorter than
    [len(query) + k], each with its distance. *)
Lemma fuzzy_build_exact ws query k :
  Forall term_free ws → (0 ≤ k)%Z →
  ∃ out, Trie.fuzzy (Trie.build ws) query k = Some out
    ∧ ∀ x d, In (x, d) out ↔
        In x ws ∧ d = Z.of_nat (lev x query) ∧ (d ≤ k)%Z
        ∧ (Z.of_nat (length x) < Z.of_nat (length query) + k)%Z.
Proof.
  intros Hws Hk. rewrite fuzzy_walk by done. eexists. split; [done|].
  intros x d. split.
  - intros Hin. destruct (walk_holds _ _ _ _ _ _ _ Hin) as (s & -> & Hs).
    apply walk_sound in Hin as (-> & ? & _ & ?). cbn [app] in *.
    split; [by apply (holds_build ws s Hws)|]. split; [done|]. split; [done|lia].
  - intros (Hx & -> & Hle & Hlen).
    apply (walk_complete k query _ x (Trie.build ws) []); [|  |done|simpl; lia].
    + by apply holds_build.
    + rewrite Forall_forall in Hws. by apply Hws, list_elem_of_In.
Qed.

End exact_facts.

(** * The claims *)

(** ** The recursion limit *)

Section limit_facts.
Local Open Scope nat_scope.

Lemma refines_bind {A B : Type} (r : result A) (o : option A)
    (f : A → result B) (g : A → option B) :
  refines r o → (∀ a, refines (f a) (g a)) → refines (r ≫= f) (o ≫= g).
Proof.
  intros [->|Hr] Hfg; [by left|].
  destruct r as [a|[]], o as [b|]; cbn in Hr; try done; try (by right).
  subst b. apply Hfg.
Qed.

Lemma refines_indexed {A : Type} (o : option A) : refines (indexed o) o.
Proof. right. by destruct o. Qed.

Lemma refines_valued {A : Type} (o : option A) : refines (valued o) o.
Proof. right. by destruct o. Qed.

Lemma refines_Done {A : Type} (a : A) : refines (Done a) (Some a).
Proof. by right. Qed.

Lemma refines_enter {A : Type} frames (body : nat → result A) (o : option A) :
  (∀ frames', refines (body frames') o) → refines (enter frames body) o.
Proof. intros Hbody. destruct frames; [by left|apply Hbody]. Qed.

Lemma refines_fst {A B : Type} (r : result (A * B)) (o : option (A * B)) :
  refines r o → refines (r ≫= λ '(a, _), Done a) (fst <$> o).
Proof.
  intros [->|Hr]; [by left|]. right.
  destruct r as [[a b]|[]], o as [[a' b']|]; cbn in *; try done; congruence.
Qed.

Lemma refines_Some_inv {A : Type} (r : result A) (a : A) :
  refines r (Some a) → r = Done a ∨ r = Raised RecursionError.
Proof.
  intros [->|Hr]; [by right|]. left.
  destruct r as [b|e]; cbn in Hr; [by subst|by destruct e].
Qed.

(** *** The limited runs against the walks *)

Lemma limited_traverse_unfold d cs frames sofar :
  Limited.traverse d (Node cs) frames sofar
  = enter frames (λ frames,
      (fix each (cs : list (ascii * node)) : result results :=
         match cs with
         | [] => Done []
         | (c, child) :: rest =>
             out1 ← (if decide (c = NUL) then Done [(sofar, d)]
                     else Limited.traverse d child frames (sofar ++ [c]));
             out2 ← each rest;
             Done (out1 ++ out2)
         end) cs).
Proof. reflexivity. Qed.

Lemma limited_traverse_refines d nd :
  ∀ frames sofar,
    refines (Limited.traverse d nd frames sofar) (Some (Trie.traverse d nd sofar)).
Proof.
  induction nd as [cs IH] using node_ind. intros frames sofar.
  rewrite limited_traverse_unfold. apply refines_enter. clear frames. intros frames.
  cbn [Trie.traverse].
  induction IH as [|[c child] cs Hchild _ IHcs]; [apply refines_Done|].
  cbn [snd] in Hchild.
  apply (refines_bind _ (Some _) _ (λ out1, Some (out1 ++ _))).
  - destruct (decide (c = NUL)); [apply refines_Done|apply Hchild].
  - intros out1. apply (refines_bind _ (Some _) _ (λ out2, Some (out1 ++ out2))).
    + apply IHcs.
    + intros out2. apply refines_Done.
Qed.

Lemma limited_fuzzy_items_refines {X : Type}
    (dl : X → nat → word → table → result (results * table))
    (du : X → nat → word → table → option (results * table))
    k query i sofar (cs : list (ascii * X)) :
  Forall (λ e, ∀ i sofar tab, refines (dl (snd e) i sofar tab) (du (snd e) i sofar tab)) cs →
  ∀ tab, refines (Limited.fuzzy_items dl k query i sofar cs tab)
                 (Trie.fuzzy_items du k query i sofar cs tab).
Proof.
  induction 1 as [|[c child] cs Hchild _ IH]; intros tab; [apply refines_Done|].
  cbn [snd] in Hchild. cbn [Limited.fuzzy_items Trie.fuzzy_items].
  apply refines_bind; [apply refines_indexed|]. intros d.
  destruct (bool_decide (c = NUL) && bool_decide (d ≤ k)%Z).
  { apply refines_bind; [apply IH|]. intros [out tab']. apply refines_Done. }
  apply refines_bind; [apply refines_indexed|]. intros tab1.
  apply refines_bind; [apply refines_indexed|]. intros row.
  apply refines_bind; [apply refines_valued|]. intros smallest.
  destruct (bool_decide (smallest ≤ k)%Z); [|apply IH].
  apply refines_bind; [apply Hchild|]. intros [out1 tab2].
  apply refines_bind; [apply IH|]. intros [out2 tab3]. apply refines_Done.
Qed.

Lemma limited_fuzzy__unfold k_fn query prefix cs frames i sofar (tab : table) :
  Limited.fuzzy_ k_fn query prefix (Node cs) frames i sofar tab
  = enter frames (λ frames,
      k ← enter frames (λ _, Done (k_fn i));
      if prefix && bool_decide (length query + 1 ≤ i) then
        d ← indexed (get2 tab (i - 1) (length query));
        if bool_decide (d ≤ k)%Z then
          out ← Limited.traverse d (Node cs) frames sofar; Done (out, tab)
        else Done ([], tab)
      else if bool_decide (length tab ≤ i) then Done ([], tab)
      else Limited.fuzzy_items (λ child, Limited.fuzzy_ k_fn query prefix child frames)
             k query i sofar cs tab).
Proof. reflexivity. Qed.

Lemma limited_fuzzy__refines k_fn query prefix nd :
  ∀ frames i sofar tab,
    refines (Limited.fuzzy_ k_fn query prefix nd frames i sofar tab)
            (Trie.fuzzy_ k_fn query prefix nd i sofar tab).
Proof.
  induction nd as [cs IH] using node_ind. intros frames i sofar tab.
  rewrite limited_fuzzy__unfold, fuzzy__unfold.
  apply refines_enter. clear frames. intros frames.
  destruct frames as [|frames']; [by left|]. cbn [enter mbind result_bind].
  destruct (prefix && bool_decide (length query + 1 ≤ i)).
  { apply refines_bind; [apply refines_indexed|]. intros d.
    destruct (bool_decide (d ≤ k_fn i)%Z); [|apply refines_Done].
    apply (refines_bind _ (Some _) _ (λ out, Some (out, tab)));
      [apply limited_traverse_refines|]. intros out. apply refines_Done. }
  destruct (bool_decide (length tab ≤ i)); [apply refines_Done|].
  apply limited_fuzzy_items_refines.
  eapply Forall_impl; [exact IH|]. intros [c child] Hchild i' sofar' tab'. apply Hchild.
Qed.

Lemma limited_fuzzy_with_refines frames root query k k_fn prefix :
  refines (Limited.fuzzy_with frames root query k k_fn prefix)
          (Trie.fuzzy_with root query k k_fn prefix).
Proof.
  unfold Limited.fuzzy_with, Trie.fuzzy_with. apply refines_enter. clear frames.
  intros frames. cbv zeta.
  apply refines_bind; [apply refines_indexed|]. intros tab.
  apply refines_fst, limited_fuzzy__refines.
Qed.

Lemma limited_verdict_at_refines subk k subq phase i tab :
  refines (Limited.verdict_at subk k subq phase i tab)
          (FBTrie.verdict_at subk k subq phase i tab).
Proof.
  unfold Limited.verdict_at, FBTrie.verdict_at.
  apply refines_bind.
  { destruct (bool_decide (phase = 1)); [|apply refines_Done].
    apply refines_bind; [apply refines_indexed|]. intros col. apply refines_Done. }
  intros [|]; [apply refines_Done|].
  apply refines_bind; [apply refines_indexed|]. intros row.
  apply refines_bind; [apply refines_valued|]. intros smallest. apply refines_Done.
Qed.

Lemma limited_trie_fuzzy_items_refines {X : Type}
    (dl : X → Z → nat → nat → word → table → result (results * table))
    (du : X → Z → nat → nat → word → table → option (results * table))
    subk k subq query phase i sofar (cs : list (ascii * X)) :
  Forall (λ e, ∀ subk phase i sofar tab,
            refines (dl (snd e) subk phase i sofar tab) (du (snd e) subk phase i sofar tab)) cs →
  ∀ tab, refines (Limited.trie_fuzzy_items dl subk k subq query phase i sofar cs tab)
                 (FBTrie.trie_fuzzy_items du subk k subq query phase i sofar cs tab).
Proof.
  induction 1 as [|[c child] cs Hchild _ IH]; intros tab; [apply refines_Done|].
  cbn [snd] in Hchild. cbn [Limited.trie_fuzzy_items FBTrie.trie_fuzzy_items].
  apply refines_bind; [apply refines_indexed|]. intros d.
  destruct (bool_decide (c = NUL) && bool_decide (d ≤ k)%Z).
  { apply refines_bind; [apply IH|]. intros [out tab']. apply refines_Done. }
  apply refines_bind; [apply refines_indexed|]. intros tab1.
  apply refines_bind; [apply limited_verdict_at_refines|]. intros [subk' phase'|]; [|apply IH].
  apply refines_bind; [apply Hchild|]. intros [out1 tab2].
  apply refines_bind; [apply IH|]. intros [out2 tab3]. apply refines_Done.
Qed.

Lemma limited_trie_fuzzy_items_map {X : Type}
    (g : X → Z → nat → nat → word → table → result (results * table))
    subk k subq query phase i sofar (l : list (ascii * X)) :
  ∀ tab,
    Limited.trie_fuzzy_items (λ walk, walk) subk k subq query phase i sofar
      (map (λ e, (fst e, g (snd e))) l) tab
    = Limited.trie_fuzzy_items g subk k subq query phase i sofar l tab.
Proof.
  induction l as [|[c child] l IH]; intros tab; [done|].
  cbn [map Limited.trie_fuzzy_items fst snd].
  destruct (get2 tab (i - 1) (length query)) as [d|]; [|done].
  cbn [indexed mbind result_bind].
  destruct (bool_decide (c = NUL) && bool_decide (d ≤ k)%Z); [by rewrite IH|].
  destruct (fill_row c query i tab) as [tab1|]; [|done]. cbn [indexed mbind result_bind].
  destruct (Limited.verdict_at subk k subq phase i tab1) as [[subk' phase'|]|]; [| |done];
    cbn [mbind result_bind]; [|by rewrite IH].
  destruct (g child subk' phase' (i + 1) (sofar ++ [c]) tab1) as [[out1 tab2]|]; [|done].
  cbn [mbind result_bind]. by rewrite IH.
Qed.

(** [Limited.trie_fuzzy_] in the shape of the source. *)
Lemma limited_trie_fuzzy__unfold k subq query cs frames subk phase i sofar (tab : table) :
  Limited.trie_fuzzy_ k subq query (Node cs) frames subk phase i sofar tab
  = enter frames (λ frames,
      if bool_decide (length tab ≤ i) then Done ([], tab)
      else
        _ ← match cs with
            | [] => Done tt
            | _ :: _ => enter frames (λ _, Done tt)
            end;
        Limited.trie_fuzzy_items (λ child, Limited.trie_fuzzy_ k subq query child frames)
          subk k subq query phase i sofar (FBTrie.sorted_items cs) tab).
Proof.
  cbn [Limited.trie_fuzzy_]. destruct frames as [|frames]; [done|]. cbn [enter].
  destruct (bool_decide (length tab ≤ i)); [done|].
  rewrite <- (limited_trie_fuzzy_items_map
                (λ child, Limited.trie_fuzzy_ k subq query child frames)).
  by rewrite <- (sorted_items_map
                   (λ child, Limited.trie_fuzzy_ k subq query child frames) cs).
Qed.

Lemma limited_trie_fuzzy__refines k subq query nd :
  ∀ frames subk phase i sofar tab,
    refines (Limited.trie_fuzzy_ k subq query nd frames subk phase i sofar tab)
            (FBTrie.trie_fuzzy_ k subq query nd subk phase i sofar tab).
Proof.
  induction nd as [cs IH] using node_ind. intros frames subk phase i sofar tab.
  rewrite limited_trie_fuzzy__unfold, trie_fuzzy__unfold.
  apply refines_enter. clear frames. intros frames.
  destruct (bool_decide (length tab ≤ i)); [apply refines_Done|].
  assert (refines (match cs with
                   | [] => Done tt
                   | _ :: _ => enter frames (λ _, Done tt)
                   end) (Some tt)) as [->|Hunit]; [| by left |].
  { destruct cs; [apply refines_Done|]. apply refines_enter. intros _. apply refines_Done. }
  destruct (match cs with [] => _ | _ => _ end) as [[]|[]]; cbn in Hunit; try done.
  cbn [mbind result_bind].
  apply limited_trie_fuzzy_items_refines.
  apply Forall_forall. intros [c child] Hin%sorted_items_elem_of.
  intros subk' phase' i' sofar' tab'.
  apply (proj1 (Forall_forall _ _) IH (c, child) Hin).
Qed.

Lemma limited_trie_fuzzy_refines frames root subk k subq query :
  refines (Limited.trie_fuzzy frames root subk k subq query)
          (FBTrie.trie_fuzzy root subk k subq query).
Proof.
  unfold Limited.trie_fuzzy, FBTrie.trie_fuzzy. apply refines_enter. clear frames.
  intros frames. cbv zeta.
  apply refines_bind; [apply refines_indexed|]. intros tab.
  apply refines_fst, limited_trie_fuzzy__refines.
Qed.

Lemma limited_fb_fuzzy_refines frames fb query k :
  refines (Limited.fb_fuzzy frames fb query k) (FBTrie.fuzzy fb query k).
Proof.
  unfold Limited.fb_fuzzy, FBTrie.fuzzy. apply refines_enter. clear frames.
  intros frames. cbv zeta.
  apply refines_bind; [apply limited_trie_fuzzy_refines|]. intros out_f.
  apply refines_bind.
  { apply refines_enter. intros frames'. apply limited_trie_fuzzy_refines. }
  intros out_b. apply refines_Done.
Qed.

(** *** Frames that are enough *)

Lemma set2_length (tab tab' : table) i j v :
  set2 tab i j v = Some tab' → length tab' = length tab.
Proof.
  unfold set2. destruct (tab !! i) as [row|]; [|done]. cbn [mbind option_bind].
  destruct (decide (j < length row)); [|done]. intros [= <-]. by rewrite length_insert.
Qed.

Lemma for_each_length body js :
  (∀ (t t' : table) j, body t j = Some t' → length t' = length t) →
  ∀ tab tab', for_each body js tab = Some tab' → length tab' = length tab.
Proof.
  intros Hbody. induction js as [|j js IH]; intros tab tab'; cbn [for_each].
  - by intros [= <-].
  - destruct (body tab j) as [t1|] eqn:H1; [|done]. cbn [mbind option_bind].
    intros H2. rewrite (IH _ _ H2). by apply (Hbody _ _ j).
Qed.

Lemma new_table_length n k tab :
  new_table n k = Some tab → length tab = Z.to_nat (Z.of_nat n + k + 1).
Proof.
  unfold new_table. intros Htab. apply for_each_length in Htab.
  - by rewrite Htab, length_replicate.
  - intros t t' j. apply set2_length.
Qed.

Lemma fill_row_length c query i tab tab1 :
  fill_row c query i tab = Some tab1 → length tab1 = length tab.
Proof.
  unfold fill_row. destruct (set2 tab i 0 (Z.of_nat i)) as [tab0|] eqn:H0; [|done].
  cbn [mbind option_bind]. destruct (tab0 !! i) as [row|]; [|done].
  cbn [mbind option_bind]. intros Htab1. apply for_each_length in Htab1.
  - rewrite Htab1. by apply set2_length in H0.
  - intros t t' j. unfold fill_cell.
    destruct (query !! (j - 1)) as [q|]; [|done]. cbn [mbind option_bind].
    destruct (get2 t (i - 1) (j - 1)); [|done]. cbn [mbind option_bind].
    destruct (get2 t (i - 1) j); [|done]. cbn [mbind option_bind].
    destruct (get2 t i (j - 1)); [|done]. cbn [mbind option_bind].
    apply set2_length.
Qed.

Lemma in_depth_bind rows (r : result (results * table))
    (f : results * table → result (results * table)) :
  in_depth rows r →
  (∀ out tab', length tab' = rows → in_depth rows (f (out, tab'))) →
  in_depth rows (r ≫= f).
Proof.
  intros Hr Hf. destruct r as [[out tab']|e]; [by apply Hf|exact Hr].
Qed.

Lemma in_depth_indexed {A : Type} rows (o : option A)
    (f : A → result (results * table)) :
  (∀ a, o = Some a → in_depth rows (f a)) → in_depth rows (indexed o ≫= f).
Proof. intros Hf. destruct o as [a|]; [by apply Hf|done]. Qed.

Lemma in_depth_valued {A : Type} rows (o : option A)
    (f : A → result (results * table)) :
  (∀ a, o = Some a → in_depth rows (f a)) → in_depth rows (valued o ≫= f).
Proof. intros Hf. destruct o as [a|]; [by apply Hf|done]. Qed.

Lemma limited_fuzzy_items_in_depth {X : Type}
    (dl : X → nat → word → table → result (results * table))
    k query i sofar (cs : list (ascii * X)) rows :
  Forall (λ e, ∀ sofar tab, length tab = rows →
                 in_depth rows (dl (snd e) (i + 1) sofar tab)) cs →
  ∀ tab, length tab = rows →
         in_depth rows (Limited.fuzzy_items dl k query i sofar cs tab).
Proof.
  induction 1 as [|[c child] cs Hchild _ IH]; intros tab Hlen; [done|].
  cbn [snd] in Hchild. cbn [Limited.fuzzy_items].
  apply in_depth_indexed. intros d _.
  destruct (bool_decide (c = NUL) && bool_decide (d ≤ k)%Z).
  { apply in_depth_bind; [by apply IH|]. by intros out tab' Hlen'. }
  apply in_depth_indexed. intros tab1 Htab1%fill_row_length.
  apply in_depth_indexed. intros row _.
  apply in_depth_valued. intros smallest _.
  destruct (bool_decide (smallest ≤ k)%Z); [|apply IH; congruence].
  apply in_depth_bind; [apply Hchild; congruence|]. intros out1 tab2 Hlen2.
  apply in_depth_bind; [by apply IH|]. by intros out2 tab3 Hlen3.
Qed.

(** With the prefix mode off the walk is never deeper than the table: a
    call at depth [i] needs its own frame, those of the calls below it down
    to the depth of the cutoff, and one for [k_fn]. *)
Lemma limited_fuzzy__in_depth k_fn query nd :
  ∀ frames i sofar tab,
    length tab + 2 ≤ frames + i → i ≤ length tab →
    in_depth (length tab) (Limited.fuzzy_ k_fn query false nd frames i sofar tab).
Proof.
  induction nd as [cs IH] using node_ind. intros frames i sofar tab Hframes Hi.
  rewrite limited_fuzzy__unfold.
  destruct frames as [|[|frames]]; [lia|lia|]. cbn [enter mbind result_bind andb].
  case_bool_decide as Hcut; [done|].
  apply limited_fuzzy_items_in_depth; [|done].
  eapply Forall_impl; [exact IH|]. intros [c child] Hchild sofar' tab' Hlen'.
  cbn [snd] in *. rewrite <- Hlen'. apply Hchild; lia.
Qed.

Lemma limited_fuzzy_enough frames root query k :
  (0 ≤ k)%Z → (Z.of_nat (length query) + k + 3 ≤ Z.of_nat frames)%Z →
  Limited.fuzzy frames root query k ≠ Raised RecursionError.
Proof.
  intros Hk Hframes. unfold Limited.fuzzy, Limited.fuzzy_with.
  destruct frames as [|frames]; [lia|]. cbn [enter default].
  destruct (new_table (length query) k) as [tab|] eqn:Htab; [|done].
  apply new_table_length in Htab. cbn [indexed mbind result_bind].
  pose proof (limited_fuzzy__in_depth (λ _, k) query root frames 1 [] tab) as Hrun.
  destruct (Limited.fuzzy_ _ _ _ _ _ _ _ _) as [[out tab']|[]]; try done.
  intros _. exact (Hrun ltac:(lia) ltac:(lia)).
Qed.

Lemma limited_verdict_at_in_depth rows subk k subq phase i tab
    (f : verdict → result (results * table)) :
  (∀ v, in_depth rows (f v)) →
  in_depth rows (Limited.verdict_at subk k subq phase i tab ≫= f).
Proof.
  intros Hf. unfold Limited.verdict_at.
  destruct (bool_decide (phase = 1)).
  - destruct (get2 tab i (length subq)) as [col|]; [|done].
    cbn [indexed mbind result_bind].
    destruct (bool_decide (col ≤ subk)%Z); [apply Hf|].
    destruct (tab !! i) as [row|]; [|done]. cbn [indexed mbind result_bind].
    destruct (list_min row); [apply Hf|done].
  - cbn [mbind result_bind].
    destruct (tab !! i) as [row|]; [|done]. cbn [indexed mbind result_bind].
    destruct (list_min row); [apply Hf|done].
Qed.

Lemma limited_trie_fuzzy_items_in_depth {X : Type}
    (dl : X → Z → nat → nat → word → table → result (results * table))
    subk k subq query phase i sofar (cs : list (ascii * X)) rows :
  Forall (λ e, ∀ subk phase sofar tab, length tab = rows →
                 in_depth rows (dl (snd e) subk phase (i + 1) sofar tab)) cs →
  ∀ tab, length tab = rows →
         in_depth rows (Limited.trie_fuzzy_items dl subk k subq query phase i sofar cs tab).
Proof.
  induction 1 as [|[c child] cs Hchild _ IH]; intros tab Hlen; [done|].
  cbn [snd] in Hchild. cbn [Limited.trie_fuzzy_items].
  apply in_depth_indexed. intros d _.
  destruct (bool_decide (c = NUL) && bool_decide (d ≤ k)%Z).
  { apply in_depth_bind; [by apply IH|]. by intros out tab' Hlen'. }
  apply in_depth_indexed. intros tab1 Htab1%fill_row_length.
  apply limited_verdict_at_in_depth. intros [subk' phase'|]; [|apply IH; congruence].
  apply in_depth_bind; [apply Hchild; congruence|]. intros out1 tab2 Hlen2.
  apply in_depth_bind; [by apply IH|]. by intros out2 tab3 Hlen3.
Qed.

(** The same for the walk of [FBTrie]: a call at depth [i] needs its own
    frame, those of the calls below it, and at the deepest node that is
    looped over one for the sort key. *)
Lemma limited_trie_fuzzy__in_depth k subq query nd :
  ∀ frames subk phase i sofar tab,
    length tab + 1 ≤ frames + i → i ≤ length tab →
    in_depth (length tab)
      (Limited.trie_fuzzy_ k subq query nd frames subk phase i sofar tab).
Proof.
  induction nd as [cs IH] using node_ind.
  intros frames subk phase i sofar tab Hframes Hi.
  rewrite limited_trie_fuzzy__unfold.
  destruct frames as [|frames]; [lia|]. cbn [enter].
  case_bool_decide as Hcut; [done|].
  destruct frames as [|frames]; [lia|].
  replace (match cs with [] => Done tt | _ :: _ => enter (S frames) (λ _, Done tt) end)
    with (Done (A:=unit) tt) by (by destruct cs).
  cbn [mbind result_bind].
  apply limited_trie_fuzzy_items_in_depth; [|done].
  apply Forall_forall. intros [c child] Hin%sorted_items_elem_of.
  intros subk' phase' sofar' tab' Hlen'. cbn [snd]. rewrite <- Hlen'.
  apply (proj1 (Forall_forall _ _) IH (c, child) Hin); lia.
Qed.

Lemma limited_trie_fuzzy_enough frames root subk k subq query :
  (0 ≤ k)%Z → (Z.of_nat (length query) + k + 2 ≤ Z.of_nat frames)%Z →
  Limited.trie_fuzzy frames root subk k subq query ≠ Raised RecursionError.
Proof.
  intros Hk Hframes. unfold Limited.trie_fuzzy.
  destruct frames as [|frames]; [lia|]. cbn [enter].
  destruct (new_table (length query) k) as [tab|] eqn:Htab; [|done].
  apply new_table_length in Htab. cbn [indexed mbind result_bind].
  pose proof (limited_trie_fuzzy__in_depth k subq query root frames subk 1 1 [] tab) as Hrun.
  destruct (Limited.trie_fuzzy_ _ _ _ _ _ _ _ _ _ _) as [[out tab']|[]]; try done.
  intros _. exact (Hrun ltac:(lia) ltac:(lia)).
Qed.

Lemma limited_fb_fuzzy_enough frames fb query k :
  (0 ≤ k)%Z → (Z.of_nat (length query) + k + 4 ≤ Z.of_nat frames)%Z →
  Limited.fb_fuzzy frames fb query k ≠ Raised RecursionError.
Proof.
  intros Hk Hframes. unfold Limited.fb_fuzzy.
  destruct frames as [|[|frames]]; [lia|lia|]. cbn [enter].
  pose proof (limited_trie_fuzzy_enough (S frames) (FBTrie.f fb) (FBTrie.k1 k) k
                (take (length query / 2) query) query Hk ltac:(lia)) as Hf.
  pose proof (limited_trie_fuzzy_enough frames (FBTrie.b fb) (FBTrie.k2 k) k
                (reverse (drop (length query / 2) query)) (reverse query) Hk
                ltac:(rewrite length_reverse; lia)) as Hb.
  destruct (Limited.trie_fuzzy (S frames) _ _ _ _ _) as [out_f|[]]; try done.
  cbn [mbind result_bind].
  destruct (Limited.trie_fuzzy frames _ _ _ _ _) as [out_b|[]]; done.
Qed.

End limit_facts.

Section claims.
Local Open Scope nat_scope.

(** C1.  The plain search is not the brute-force filter: in the scenario with
    the dictionary cat, cats, bat, rat, the query cat and [k = 1] the word
    cats, at distance 1, is not yielded; the walk stops one level short of
    the terminator of a word of length [len(query) + k]. *)
Theorem fuzzy_cat_scenario :
  Trie.fuzzy (Trie.build cat_words) (w "cat") 1
  = Some [(w "cat", 0%Z); (w "bat", 1%Z); (w "rat", 1%Z)]
  ∧ In (w "cats") cat_words ∧ lev (w "cats") (w "cat") = 1.
Proof. split; [by vm_compute|]. split; [|by vm_compute]. simpl. tauto. Qed.

(** C2.  The forward/backward search loses a word the plain search finds:
    with the dictionary b, the query a and [k = 1] the plain trie yields
    (b, 1) and the FB trie yields nothing. *)
Theorem fb_fuzzy_misses_word :
  Trie.fuzzy (Trie.build [w "b"]) (w "a") 1 = Some [(w "b", 1%Z)]
  ∧ FBTrie.fuzzy (FBTrie.build [w "b"]) (w "a") 1 = Some [].
Proof. split; by vm_compute. Qed.

(** C3.  Every pair yielded by [Trie.fuzzy] (prefix mode off) and by
    [FBTrie.fuzzy] carries the Levenshtein distance between its word and the
    query, and that distance is at most [k]; the distance does not change
    when both strings are reversed, which is what the backward phase needs. *)
Theorem fuzzy_pairs_sound (root : node) (fb : FBTrie.t) (query : word) (k : Z) :
  (0 ≤ k)%Z →
  (∃ out, Trie.fuzzy root query k = Some out
          ∧ ∀ x d, In (x, d) out → d = Z.of_nat (lev x query) ∧ (d ≤ k)%Z)
  ∧ (∃ out, FBTrie.fuzzy fb query k = Some out
          ∧ ∀ x d, In (x, d) out → d = Z.of_nat (lev x query) ∧ (d ≤ k)%Z)
  ∧ (∀ s t : word, lev (reverse s) (reverse t) = lev s t).
Proof.
  intros Hk. split; [|split].
  - rewrite fuzzy_walk by done. eexists. split; [done|].
    intros x d Hin. apply walk_sound in Hin. tauto.
  - destruct (fb_fuzzy_ok fb query k Hk) as (out & -> & Hout).
    exists out. split; [done|]. intros x d Hin. destruct (Hout x d Hin). tauto.
  - apply lev_reverse.
Qed.

Lemma fuzzy_pairs_sound_witness :
  (0 ≤ 1)%Z
  ∧ ((∃ out, Trie.fuzzy (Trie.build cat_words) (w "cat") 1 = Some out
          ∧ ∀ x d, In (x, d) out → d = Z.of_nat (lev x (w "cat")) ∧ (d ≤ 1)%Z)
     ∧ (∃ out, FBTrie.fuzzy (FBTrie.build cat_words) (w "cat") 1 = Some out
          ∧ ∀ x d, In (x, d) out → d = Z.of_nat (lev x (w "cat")) ∧ (d ≤ 1)%Z)
     ∧ (∀ s t : word, lev (reverse s) (reverse t) = lev s t)).
Proof.
  split; [lia|].
  apply (fuzzy_pairs_sound (Trie.build cat_words) (FBTrie.build cat_words) (w "cat") 1). lia.
Defined.

(** C4.  With [k = 0] the plain search yields nothing at all, so an inserted
    word is not found by [fuzzy(w, 0)]: the table has [len(query) + 1] rows
    and the walk returns before it looks at the terminator below a path of
    that length. *)
Theorem fuzzy_zero_budget_empty :
  Trie.fuzzy (Trie.build [w "a"]) (w "a") 0 = Some []
  ∧ ∀ root query, Trie.fuzzy root query 0 = Some [].
Proof.
  split; [by vm_compute|]. intros root query. rewrite fuzzy_walk by done. f_equal.
  destruct (walk _ _ _ _ _) as [|[x d] out] eqn:E; [done|].
  assert (In (x, d) (walk 0 query (Z.to_nat (Z.of_nat (length query) + 0 + 1)) root []))
    as Hin by (rewrite E; by left).
  apply walk_sound in Hin as (-> & ? & _ & ?).
  pose proof (lev_length_r x query). lia.
Qed.

(** C5, as stated, fails: for [k = 0] the first-half budget of phase A is
    [(0 - 1) // 2 = -1], not 0.  The difference shows on the first edge a of
    the query a: with the budget the code uses the edge is pruned, with the
    budget 0 it would be followed. *)
Lemma fb_k1_at_zero_is_negative :
  FBTrie.k1 0 ≠ 0%Z ∧ (FBTrie.k1 0 < 0)%Z
  ∧ ∃ tab0 tab1,
      new_table 1 0 = Some tab0 ∧ fill_row "a"%char (w "a") 1 tab0 = Some tab1
      ∧ FBTrie.verdict_at (FBTrie.k1 0) 0 [] 1 1 tab1 = Some Prune
      ∧ FBTrie.verdict_at 0 0 [] 1 1 tab1 = Some (Descend 0 1).
Proof.
  split; [by vm_compute|]. split; [by vm_compute|].
  exists [[0; 1]; [0; 0]]%Z, [[0; 1]; [1; 0]]%Z. repeat split; by vm_compute.
Qed.

(** C5, amended.  Phase A searches the forward trie against the whole query
    with the first-half budget [k1 = (k - 1) // 2] and the first half
    [query[:n // 2]]; phase B searches the backward trie against the reversed
    query with [k2 = k // 2] and the reversed second half, and its words are
    reversed back.  The division rounds down, so [k1] is -1 for [k = 0], and
    the two budgets always add up to [k - 1]. *)
Theorem fb_fuzzy_budgets (fb : FBTrie.t) (query : word) (k : Z) :
  FBTrie.fuzzy fb query k
  = (out_f ← FBTrie.trie_fuzzy (FBTrie.f fb) (FBTrie.k1 k) k
               (take (length query / 2) query) query;
     out_b ← FBTrie.trie_fuzzy (FBTrie.b fb) (FBTrie.k2 k) k
               (reverse (drop (length query / 2) query)) (reverse query);
     Some (out_f ++ map (λ r, (reverse (fst r), snd r)) out_b))
  ∧ (2 * FBTrie.k1 k ≤ k - 1 < 2 * FBTrie.k1 k + 2)%Z
  ∧ (2 * FBTrie.k2 k ≤ k < 2 * FBTrie.k2 k + 2)%Z
  ∧ (FBTrie.k1 k + FBTrie.k2 k = k - 1)%Z
  ∧ FBTrie.k1 0 = (-1)%Z.
Proof.
  unfold FBTrie.k1, FBTrie.k2. repeat split; try done.
  - apply (Z.mul_div_le (k - 1) 2). lia.
  - pose proof (Z.mul_succ_div_gt (k - 1) 2). lia.
  - apply (Z.mul_div_le k 2). lia.
  - pose proof (Z.mul_succ_div_gt k 2). lia.
  - pose proof (Z.div_mod (k - 1) 2). pose proof (Z.div_mod k 2).
    pose proof (Z.mod_pos_bound (k - 1) 2). pose proof (Z.mod_pos_bound k 2).
    assert ((k - 1) `mod` 2 + k `mod` 2 = 1)%Z; [|lia].
    replace (k - 1)%Z with (k + (-1) * 2 + 1)%Z by lia.
    rewrite <- Z.add_mod_idemp_l, Z.mod_add by lia.
    rewrite Z.add_mod_idemp_l by lia.
    destruct (Z.mod_pos_bound k 2 ltac:(lia)) as [? ?].
    assert (k `mod` 2 = 0 ∨ k `mod` 2 = 1)%Z as [E|E] by lia.
    + rewrite E. assert ((k + 1) `mod` 2 = 1)%Z; [|lia].
      rewrite <- Z.add_mod_idemp_l, E by lia. done.
    + rewrite E. assert ((k + 1) `mod` 2 = 0)%Z; [|lia].
      rewrite <- Z.add_mod_idemp_l, E by lia. done.
Qed.

(** C6, as stated, fails: in phase 1 the column test does not decide the
    descent.  For the word abcd, the query abcd, [k = 2] and [k1 = 0], at the
    node a the cell of column 2 is 1, above the budget, and the search
    descends all the same, still in phase 1 with the budget 0, because the
    smallest cell of the row is 0; that is how the word is found. *)
Lemma phase1_descends_on_row_minimum :
  ∃ tab0 tab1,
    new_table 4 2 = Some tab0 ∧ fill_row "a"%char (w "abcd") 1 tab0 = Some tab1
    ∧ get2 tab1 1 (length (w "ab")) = Some 1%Z ∧ ¬ (1 ≤ 0)%Z
    ∧ FBTrie.verdict_at 0 2 (w "ab") 1 1 tab1 = Some (Descend 0 1)
    ∧ FBTrie.trie_fuzzy (Trie.build [w "abcd"]) 0 2 (w "ab") (w "abcd")
      = Some [(w "abcd", 0%Z)].
Proof.
  eexists _, _. split; [by vm_compute|]. split; [by vm_compute|].
  split; [by vm_compute|]. split; [lia|]. split; by vm_compute.
Qed.

(** C6, amended.  On a computed row, in phase 1 the search descends exactly
    when the smallest cell of the row is at most [k1]; the cell of column
    [len(q1)] decides the phase of the descent: when it is at most [k1] the
    descent is made in phase 2 with the full budget [k], otherwise it stays
    in phase 1 with [k1].  In phase 2 the search descends when the smallest
    cell is at most [k], always in phase 2, and what it yields below a node
    no longer depends on the half query. *)
Theorem fb_verdict_phases (subk k : Z) (subq subq' query : word) (i : nat) (tab : table)
    (row : list Z) (col smallest : Z) :
  tab !! i = Some row → row !! length subq = Some col → list_min row = Some smallest →
  FBTrie.verdict_at subk k subq 1 i tab
  = Some (if bool_decide (col ≤ subk)%Z then Descend k 2
          else if bool_decide (smallest ≤ subk)%Z then Descend subk 1 else Prune)
  ∧ (FBTrie.verdict_at subk k subq 1 i tab ≠ Some Prune ↔ (smallest ≤ subk)%Z)
  ∧ FBTrie.verdict_at k k subq 2 i tab
    = Some (if bool_decide (smallest ≤ k)%Z then Descend k 2 else Prune)
  ∧ (∀ nd i' sofar tab',
       FBTrie.trie_fuzzy_ k subq query nd k 2 i' sofar tab'
       = FBTrie.trie_fuzzy_ k subq' query nd k 2 i' sofar tab').
Proof.
  intros Hrow Hcol Hmin. pose proof (list_min_le _ _ _ _ Hmin Hcol) as Hle.
  rewrite !(verdict_at_row _ _ _ _ _ _ _ _ _ Hrow Hcol Hmin). cbn [bool_decide andb].
  split; [done|]. split; [|split; [done|]].
  - repeat case_bool_decide; split; intros; try done; try lia.
  - intros. apply trie_fuzzy__phase2.
Qed.

Lemma fb_verdict_phases_witness :
  abcd_rows !! 1 = Some [1; 0; 1; 2; 3]%Z
  ∧ [1; 0; 1; 2; 3]%Z !! length (w "ab") = Some 1%Z
  ∧ list_min [1; 0; 1; 2; 3]%Z = Some 0%Z
  ∧ FBTrie.verdict_at 0 2 (w "ab") 1 1 abcd_rows = Some (Descend 0 1).
Proof.
  split; [reflexivity|]. split; [reflexivity|]. split; [reflexivity|].
  exact (proj1 (fb_verdict_phases 0 2 (w "ab") [] (w "abcd") 1 abcd_rows
                  [1; 0; 1; 2; 3]%Z 1 0 eq_refl eq_refl eq_refl)).
Defined.

(** C7.  For a dictionary of terminator-free words and budgets
    [0 ≤ k ≤ k'], every word yielded by [fuzzy(query, k)] is yielded by
    [fuzzy(query, k')], and a word yielded by both carries the same distance
    in both. *)
Theorem fuzzy_monotone (ws : list word) (query : word) (k k' : Z) :
  Forall term_free ws → (0 ≤ k)%Z → (k ≤ k')%Z →
  ∃ out out',
    Trie.fuzzy (Trie.build ws) query k = Some out
    ∧ Trie.fuzzy (Trie.build ws) query k' = Some out'
    ∧ (∀ x, In x (map fst out) → In x (map fst out'))
    ∧ (∀ x d d', In (x, d) out → In (x, d') out' → d = d').
Proof.
  intros Hws Hk Hk'. rewrite !fuzzy_walk by lia. eexists _, _.
  split; [done|]. split; [done|]. split.
  - intros x [[x' d] [<- Hin]]%in_map_iff. apply in_map_iff. exists (x', d).
    split; [done|]. revert Hin. apply walk_mono; [done|lia|].
    by apply build_well_marked.
  - intros x d d' (-> & _)%walk_sound (-> & _)%walk_sound. done.
Qed.

Lemma fuzzy_monotone_witness :
  Forall term_free cat_words ∧ (0 ≤ 1)%Z ∧ (1 ≤ 2)%Z
  ∧ ∃ out out',
      Trie.fuzzy (Trie.build cat_words) (w "cat") 1 = Some out
      ∧ Trie.fuzzy (Trie.build cat_words) (w "cat") 2 = Some out'
      ∧ (∀ x, In x (map fst out) → In x (map fst out'))
      ∧ (∀ x d d', In (x, d) out → In (x, d') out' → d = d').
Proof.
  assert (Forall term_free cat_words) as Hws
    by (apply (bool_decide_unpack _); vm_compute; exact I).
  split; [exact Hws|]. split; [lia|]. split; [lia|].
  apply (fuzzy_monotone cat_words (w "cat") 1 2 Hws); lia.
Defined.

(** C8, as stated, fails: a search can raise.  With the word of 1050
    symbols a stored, the query a and the budget 1100, the table has 1102
    rows and the walk follows the word to its end, one generator frame for
    every symbol; with the 1000 frames of the default recursion limit both
    searches end in [RecursionError]. *)
Lemma fuzzy_deep_trie_raises :
  (0 ≤ 1100)%Z
  ∧ Limited.fuzzy 1000 (Trie.build [a_word 1050]) (w "a") 1100
    = Raised RecursionError
  ∧ Limited.fb_fuzzy 1000 (FBTrie.build [a_word 1050]) (w "a") 1100
    = Raised RecursionError.
Proof. split; [lia|]. split; by vm_compute. Qed.

(** C8, amended.  For every trie, every query and every budget [k ≥ 0] the
    walks of [Trie.fuzzy] and [FBTrie.fuzzy] make no access out of range to
    the table or to the query, whatever the length of the stored words: run
    without a limit on the depth they return their results.  Under the
    recursion limit [RecursionError] is the only exception they can raise:
    with [frames] frames left for the generators and functions of the module
    each search returns those same results, or it raises [RecursionError]
    and fewer than [n + k + 3] frames were left ([n + k + 4] for
    [FBTrie.fuzzy]), [n] being the length of the query. *)
Theorem fuzzy_total_up_to_recursion_limit
    (root : node) (fb : FBTrie.t) (query : word) (k : Z) (frames : nat) :
  (0 ≤ k)%Z →
  ∃ out out_fb,
    Trie.fuzzy root query k = Some out
    ∧ FBTrie.fuzzy fb query k = Some out_fb
    ∧ (Limited.fuzzy frames root query k = Done out
       ∨ Limited.fuzzy frames root query k = Raised RecursionError
         ∧ (Z.of_nat frames < Z.of_nat (length query) + k + 3)%Z)
    ∧ (Limited.fb_fuzzy frames fb query k = Done out_fb
       ∨ Limited.fb_fuzzy frames fb query k = Raised RecursionError
         ∧ (Z.of_nat frames < Z.of_nat (length query) + k + 4)%Z).
Proof.
  intros Hk.
  destruct (fb_fuzzy_ok fb query k Hk) as (out_fb & Hfb & _).
  eexists _, out_fb. split; [by apply fuzzy_walk|]. split; [exact Hfb|]. split.
  - pose proof (limited_fuzzy_with_refines frames root query k None false) as Hrun.
    fold (Limited.fuzzy frames root query k) in Hrun.
    fold (Trie.fuzzy root query k) in Hrun. rewrite fuzzy_walk in Hrun by done.
    apply refines_Some_inv in Hrun as [Hrun|Hrun]; [by left|]. right. split; [done|].
    destruct (Z.lt_ge_cases (Z.of_nat frames) (Z.of_nat (length query) + k + 3))
      as [Hlt|Hge]; [done|].
    by destruct (limited_fuzzy_enough frames root query k Hk Hge).
  - pose proof (limited_fb_fuzzy_refines frames fb query k) as Hrun.
    rewrite Hfb in Hrun.
    apply refines_Some_inv in Hrun as [Hrun|Hrun]; [by left|]. right. split; [done|].
    destruct (Z.lt_ge_cases (Z.of_nat frames) (Z.of_nat (length query) + k + 4))
      as [Hlt|Hge]; [done|].
    by destruct (limited_fb_fuzzy_enough frames fb query k Hk Hge).
Qed.

Lemma fuzzy_total_up_to_recursion_limit_witness :
  (0 ≤ 1)%Z
  ∧ ∃ out out_fb,
      Trie.fuzzy (Trie.build cat_words) (w "cat") 1 = Some out
      ∧ FBTrie.fuzzy (FBTrie.build cat_words) (w "cat") 1 = Some out_fb
      ∧ (Limited.fuzzy 8 (Trie.build cat_words) (w "cat") 1 = Done out
         ∨ Limited.fuzzy 8 (Trie.build cat_words) (w "cat") 1 = Raised RecursionError
           ∧ (Z.of_nat 8 < Z.of_nat (length (w "cat")) + 1 + 3)%Z)
      ∧ (Limited.fb_fuzzy 8 (FBTrie.build cat_words) (w "cat") 1 = Done out_fb
         ∨ Limited.fb_fuzzy 8 (FBTrie.build cat_words) (w "cat") 1 = Raised RecursionError
           ∧ (Z.of_nat 8 < Z.of_nat (length (w "cat")) + 1 + 4)%Z).
Proof.
  split; [lia|].
  apply (fuzzy_total_up_to_recursion_limit
           (Trie.build cat_words) (FBTrie.build cat_words) (w "cat") 1 8).
  lia.
Defined.

(** C9.  At every call of the walk, made at depth [i] with the path [sofar]
    of length [i - 1], row 0 of the table holds [0 .. n] and every cell
    [(i', j)] with [i' < i] holds the Levenshtein distance between the first
    [i'] symbols of the path and the first [j] symbols of the query. *)
Theorem table_invariant (k : Z) (query : word) (root : node) (st : call) :
  (0 ≤ k)%Z → reached k query root st →
  call_i st = length (call_sofar st) + 1
  ∧ (∀ j, j ≤ length query → get2 (call_tab st) 0 j = Some (Z.of_nat j))
  ∧ (∀ i' j, i' < call_i st → j ≤ length query →
       get2 (call_tab st) i' j
       = Some (Z.of_nat (lev (take i' (call_sofar st)) (take j query)))).
Proof.
  intros Hk Hst. destruct (reached_table_ok k query root st Hk Hst) as [Htab Hi].
  assert (∀ i' j, i' < call_i st → j ≤ length query →
            get2 (call_tab st) i' j
            = Some (Z.of_nat (lev (take i' (call_sofar st)) (take j query)))) as Hcells.
  { intros i' j Hi' Hj. rewrite (get2_row _ _ _ _ (ok_path _ _ _ _ Htab i' ltac:(lia))).
    by apply lev_row_lookup. }
  split; [done|]. split; [|done].
  intros j Hj. rewrite Hcells by lia. rewrite take_0, lev_nil_l, length_take.
  do 2 f_equal. lia.
Qed.

Lemma table_invariant_witness :
  (0 ≤ 1)%Z ∧ reached 1 (w "a") (Trie.build [w "a"]) call_below_a
  ∧ call_i call_below_a = length (call_sofar call_below_a) + 1
  ∧ (∀ j, j ≤ length (w "a") → get2 (call_tab call_below_a) 0 j = Some (Z.of_nat j))
  ∧ (∀ i' j, i' < call_i call_below_a → j ≤ length (w "a") →
       get2 (call_tab call_below_a) i' j
       = Some (Z.of_nat (lev (take i' (call_sofar call_below_a)) (take j (w "a"))))).
Proof.
  assert (reached 1 (w "a") (Trie.build [w "a"]) call_below_a) as Hst.
  { exists [[0; 1]; [0; 0]; [0; 0]]%Z. split; [reflexivity|].
    eapply rtc_l; [|apply rtc_refl].
    eapply (makes_child 1 (w "a") _ 1 [] _ [] "a"%char _ [] [] _ 1%Z _ [1; 0]%Z 0%Z);
      try reflexivity; simpl; lia. }
  split; [lia|]. split; [exact Hst|].
  apply (table_invariant 1 (w "a") (Trie.build [w "a"]) call_below_a); [lia|exact Hst].
Defined.

(** C10.  Within one call of [Trie.fuzzy] (prefix mode off) no word is
    yielded twice, however often it was inserted. *)
Theorem fuzzy_yields_each_word_once (ws : list word) (query : word) (k : Z) :
  (0 ≤ k)%Z →
  ∃ out, Trie.fuzzy (Trie.build ws) query k = Some out ∧ NoDup (map fst out).
Proof.
  intros Hk. rewrite fuzzy_walk by done. eexists. split; [done|].
  apply walk_NoDup, build_uniq.
Qed.

Lemma fuzzy_yields_each_word_once_witness :
  (0 ≤ 2)%Z
  ∧ ∃ out, Trie.fuzzy (Trie.build [w "cat"; w "cats"; w "cat"]) (w "cat") 2 = Some out
           ∧ NoDup (map fst out).
Proof.
  split; [lia|].
  apply (fuzzy_yields_each_word_once [w "cat"; w "cats"; w "cat"] (w "cat") 2). lia.
Defined.

End claims.

(** * Further properties of the code *)

(** ** Insertion and enumeration *)

Section insert_facts.
Local Open Scope nat_scope.

Lemma descend_descend c f g cs :
  Trie.descend c f (Trie.descend c g cs) = Trie.descend c (λ child, f (g child)) cs.
Proof.
  induction cs as [|[c' child] cs IH]; simpl.
  - by rewrite decide_True.
  - case_decide; simpl; [by rewrite decide_True|]. rewrite decide_False by done.
    by rewrite IH.
Qed.

Lemma descend_ext c f g cs :
  (∀ child, f child = g child) → Trie.descend c f cs = Trie.descend c g cs.
Proof.
  intros Hfg. induction cs as [|[c' child] cs IH]; simpl; [by rewrite Hfg|].
  case_decide; [by rewrite Hfg|by rewrite IH].
Qed.

Lemma insert_path_idem p : ∀ nd, Trie.insert_path p (Trie.insert_path p nd) = Trie.insert_path p nd.
Proof.
  induction p as [|c p IH]; intros [cs]; [done|].
  cbn [Trie.insert_path items]. f_equal. rewrite descend_descend.
  by apply descend_ext.
Qed.

Lemma traverse_unfold d cs sofar :
  Trie.traverse d (Node cs) sofar
  = flat_map (λ e : ascii * node,
      if decide (fst e = NUL) then [(sofar, d)]
      else Trie.traverse d (snd e) (sofar ++ [fst e])) cs.
Proof.
  cbn [Trie.traverse]. induction cs as [|[c child] cs IH]; [done|].
  cbn [flat_map fst snd]. by rewrite <- IH.
Qed.

(** [traverse] yields the terminator-free words below the node, each with
    the distance it was given. *)
Lemma traverse_spec d nd :
  ∀ sofar x d',
    In (x, d') (Trie.traverse d nd sofar)
    ↔ d' = d ∧ ∃ s, x = sofar ++ s ∧ term_free s ∧ holds nd s.
Proof.
  unfold term_free, holds.
  induction nd as [cs IH] using node_ind. intros sofar x d'.
  rewrite traverse_unfold, in_flat_map. rewrite Forall_forall in IH. split.
  - intros ([c child] & Hc & Hin). cbn [fst snd] in Hin.
    specialize (IH _ (proj2 (list_elem_of_In _ _) Hc)). cbn [snd] in IH.
    case_decide as Hnul.
    + subst c. destruct Hin as [[= <- <-]|[]]. split; [done|].
      exists []. rewrite app_nil_r. split; [done|]. split; [apply not_elem_of_nil|].
      by exists child.
    + apply IH in Hin as (-> & s & -> & Hs & Hp). split; [done|].
      exists (c :: s). rewrite <- app_assoc. split; [done|]. split.
      * apply not_elem_of_cons. by split; [apply not_eq_sym|].
      * by exists child.
  - intros (-> & s & -> & Hs & Hp). destruct s as [|c s].
    + destruct Hp as (child & Hin & _). exists (NUL, child). split; [done|].
      cbn [fst]. rewrite decide_True by done. rewrite app_nil_r. by left.
    + destruct Hp as (child & Hin & Hp). apply not_elem_of_cons in Hs as [Hc Hs].
      exists (c, child). split; [done|]. cbn [fst snd].
      rewrite decide_False by by apply not_eq_sym.
      apply (IH _ (proj2 (list_elem_of_In _ _) Hin)). split; [done|].
      exists s. by rewrite <- app_assoc.
Qed.

Lemma traverse_NoDup d nd :
  uniq_keys nd = true → ∀ sofar, NoDup (map fst (Trie.traverse d nd sofar)).
Proof.
  induction nd as [cs IH] using node_ind. intros Hu sofar.
  rewrite traverse_unfold.
  cbn [uniq_keys] in Hu. apply andb_true_iff in Hu as [Hkeys%bool_decide_eq_true Hu].
  assert (∀ e x d', In e cs →
    In (x, d') (if decide (fst e = NUL) then [(sofar, d)]
                else Trie.traverse d (snd e) (sofar ++ [fst e])) →
    (fst e = NUL ∧ x = sofar) ∨ ∃ s, x = sofar ++ fst e :: s) as Hword.
  { intros [c child] x d' _. cbn [fst snd]. case_decide.
    - intros [[= <- <-]|[]]. by left.
    - intros (_ & s & -> & _)%traverse_spec. right. exists s. by rewrite <- app_assoc. }
  induction cs as [|[c child] cs IHcs]; [constructor|].
  cbn [flat_map]. rewrite map_app. cbn [map fst snd forallb] in *.
  apply NoDup_cons in Hkeys as [Hc Hkeys]. apply andb_true_iff in Hu as [Huc Hu].
  apply Forall_cons in IH as [IHc IH]. cbn [snd] in IHc.
  apply NoDup_app. split; [|split].
  - case_decide; [apply NoDup_singleton|by apply IHc].
  - intros x [[x' d1] [<- Hin1]]%list_elem_of_In%in_map_iff
             [[x'' d2] [E Hin2]]%list_elem_of_In%in_map_iff.
    cbn [fst] in E. subst x''.
    apply in_flat_map in Hin2 as ([c' child'] & Hc' & Hin2).
    apply (Hword (c, child)) in Hin1; [|by left].
    apply (Hword (c', child')) in Hin2; [|by right]. cbn [fst] in *.
    assert (c = c') as <-.
    { destruct Hin1 as [[-> ->]|[s ->]], Hin2 as [[-> E]|[s' E]]; try done.
      - apply (f_equal length) in E. rewrite length_app in E. simpl in E. lia.
      - apply (f_equal length) in E. rewrite length_app in E. simpl in E. lia.
      - by apply app_inv_head in E as [= -> _]. }
    apply Hc, list_elem_of_In, in_map_iff. by exists (c, child').
  - apply IHcs; [done..|]. intros e x d' He. apply Hword. by right.
Qed.

Lemma term_free_reverse s : term_free (reverse s) ↔ term_free s.
Proof. unfold term_free. by rewrite elem_of_reverse. Qed.

Lemma term_free_map_reverse ws :
  Forall term_free ws → Forall term_free (map reverse ws).
Proof.
  induction 1 as [|x ws Hx _ IH]; constructor; [by apply term_free_reverse|done].
Qed.

Lemma fb_build_mirror ws :
  FBTrie.f (FBTrie.build ws) = Trie.build ws
  ∧ FBTrie.b (FBTrie.build ws) = Trie.build (map reverse ws).
Proof.
  unfold FBTrie.build, Trie.build.
  change (Node []) with (FBTrie.f FBTrie.empty) at 1.
  change (Node []) with (FBTrie.b FBTrie.empty).
  generalize FBTrie.empty. induction ws as [|x ws IH]; intros fb; [done|].
  cbn [foldl map]. destruct (IH (FBTrie.insert x fb)) as [-> ->]. done.
Qed.

End insert_facts.

(** ** The forward/backward search against the distances *)

Section fb_walk_facts.
Local Open Scope nat_scope.

Lemma fb_walk_unfold k subq query rows cs subk phase sofar :
  fb_walk k subq query rows (Node cs) subk phase sofar
  = if bool_decide (rows ≤ length sofar + 1) then []
    else flat_map (fb_walk_item subk k subq query phase sofar
                     (fb_walk k subq query rows)) cs.
Proof. reflexivity. Qed.

Lemma trie_fuzzy_items_walk {X : Type}
    (descend_into : X → Z → nat → nat → word → table → option (results * table))
    (unX : X → node) below subk k subq query rows phase sofar (cs : list (ascii * X)) :
  length sofar + 1 < rows → length subq ≤ length query →
  Forall (λ e, ∀ subk' phase' tab1,
    table_ok query rows (sofar ++ [fst e]) tab1 →
    ∃ out tab2,
      descend_into (snd e) subk' phase' (length sofar + 1 + 1) (sofar ++ [fst e]) tab1
      = Some (out, tab2)
      ∧ table_ok query rows (sofar ++ [fst e]) tab2
      ∧ ∀ r, In r out ↔ In r (below (unX (snd e)) subk' phase' (sofar ++ [fst e]))) cs →
  ∀ tab, table_ok query rows sofar tab →
  ∃ out tab',
    FBTrie.trie_fuzzy_items descend_into subk k subq query phase
      (length sofar + 1) sofar cs tab = Some (out, tab')
    ∧ table_ok query rows sofar tab'
    ∧ ∀ r, In r out ↔
        In r (flat_map (fb_walk_item subk k subq query phase sofar below)
                (map (λ e, (fst e, unX (snd e))) cs)).
Proof.
  intros Hi Hsubq Hcs. induction Hcs as [|[c child] cs Hchild _ IH]; intros tab Htab.
  { exists [], tab. by split. }
  cbn [fst snd] in Hchild. cbn [FBTrie.trie_fuzzy_items map flat_map fst snd].
  rewrite Nat.add_sub, (table_ok_get2 _ _ _ _ _ Htab (le_n _)), firstn_all.
  cbn [mbind option_bind]. unfold fb_walk_item at 1. cbn [fst snd].
  destruct (bool_decide (c = NUL) && bool_decide (Z.of_nat (lev sofar query) ≤ k)%Z).
  - destruct (IH tab Htab) as (out & tab' & -> & Htab' & Hout). cbn.
    eexists _, tab'. split; [done|]. split; [done|].
    intros r. cbn [In]. by rewrite Hout.
  - destruct (fill_row_ok _ _ _ c _ Htab Hi) as (tab1 & -> & Htab1). cbn [mbind option_bind].
    pose proof (ok_path _ _ _ _ Htab1 (length sofar + 1)) as Hrow.
    rewrite length_app in Hrow. specialize (Hrow (le_n _)).
    rewrite take_ge in Hrow by (rewrite length_app; simpl; lia).
    rewrite (verdict_at_row _ _ _ _ _ _ _ _ _ Hrow (lev_row_lookup _ _ _ Hsubq)
               (list_min_lev_row _ _)).
    cbn [mbind option_bind]. fold (fb_verdict subk k subq query phase (sofar ++ [c])).
    destruct (fb_verdict subk k subq query phase (sofar ++ [c])) as [subk' phase'|].
    + destruct (Hchild subk' phase' tab1 Htab1) as (out1 & tab2 & -> & Htab2 & Hout1).
      cbn [mbind option_bind].
      destruct (IH tab2 (table_ok_weaken _ _ _ _ _ Htab2)) as (out & tab' & -> & Htab' & Hout).
      cbn. eexists _, tab'. split; [done|]. split; [done|].
      intros r. by rewrite !in_app_iff, Hout1, Hout.
    + destruct (IH tab1 (table_ok_weaken _ _ _ _ _ Htab1)) as (out & tab' & -> & Htab' & Hout).
      by exists out, tab'.
Qed.

(** [trie_fuzzy_] yields the pairs of [fb_walk]. *)
Lemma trie_fuzzy__walk k subq query rows nd :
  length subq ≤ length query →
  ∀ subk phase sofar tab,
    table_ok query rows sofar tab →
    ∃ out tab',
      FBTrie.trie_fuzzy_ k subq query nd subk phase (length sofar + 1) sofar tab
      = Some (out, tab')
      ∧ table_ok query rows sofar tab'
      ∧ ∀ r, In r out ↔ In r (fb_walk k subq query rows nd subk phase sofar).
Proof.
  intros Hsubq. induction nd as [cs IH] using node_ind. intros subk phase sofar tab Htab.
  rewrite trie_fuzzy__unfold, fb_walk_unfold, (ok_rows _ _ _ _ Htab).
  destruct (bool_decide_reflect (rows ≤ length sofar + 1)) as [Hle|Hlt].
  { exists [], tab. by split. }
  destruct (trie_fuzzy_items_walk (FBTrie.trie_fuzzy_ k subq query) id
              (fb_walk k subq query rows) subk k subq query rows phase sofar
              (FBTrie.sorted_items cs)) with (tab := tab)
    as (out & tab' & Heq & Htab' & Hout); [lia|done| |done|].
  - apply Forall_forall. intros [c child] Hc%sorted_items_elem_of.
    rewrite Forall_forall in IH. specialize (IH _ Hc). cbn [fst snd] in *.
    intros subk' phase' tab1 Htab1.
    specialize (IH subk' phase' (sofar ++ [c]) tab1 Htab1).
    rewrite length_app in IH. exact IH.
  - exists out, tab'. split; [done|]. split; [done|]. intros r. rewrite Hout.
    rewrite !in_flat_map. split.
    + intros ([c child] & [[c' child'] [[= <- <-] He]]%in_map_iff & Hr).
      exists (c', child'). split; [|exact Hr]. exact (proj1 (sorted_items_In _ _) He).
    + intros ([c child] & He & Hr). exists (c, child). split; [|exact Hr].
      apply in_map_iff. exists (c, child). split; [done|].
      exact (proj2 (sorted_items_In _ _) He).
Qed.

Lemma new_table_rows query k :
  (0 < Z.of_nat (length query) + k + 1)%Z →
  ∃ tab, new_table (length query) k = Some tab
         ∧ table_ok query (Z.to_nat (Z.of_nat (length query) + k + 1)) [] tab.
Proof.
  intros Hk. set (n := length query). set (R := Z.to_nat (Z.of_nat n + k + 1)).
  assert (0 < R) as HR by lia.
  pose (Inv := λ (j : nat) (t : table),
    length t = R ∧ (∀ i row, t !! i = Some row → length row = n + 1)
    ∧ ∃ row0, t !! 0 = Some row0 ∧ ∀ j', j' < j → row0 !! j' = Some (Z.of_nat j')).
  destruct (for_each_seq Inv (λ tab j, set2 tab 0 j (Z.of_nat j)) (n + 1) 0
              (replicate R (replicate (n + 1) 0%Z))) as (tab & Htab & Hl & Hc & row0 & H0 & Hrow).
  - split; [by rewrite length_replicate|]. split.
    + intros i row [-> _]%lookup_replicate. by rewrite length_replicate.
    + exists (replicate (n + 1) 0%Z). split; [apply lookup_replicate_2; lia|]. lia.
  - intros j t Hj (Hl & Hc & row0 & H0 & Hrow).
    pose proof (Hc _ _ H0) as Hlen.
    eexists. split; [apply (set2_Some _ _ _ _ _ H0); lia|].
    split; [by rewrite length_insert|]. split.
    + intros i row. destruct (decide (i = 0)) as [->|Hne].
      * rewrite list_lookup_insert_eq by lia. intros [= <-]. by rewrite length_insert.
      * rewrite list_lookup_insert_ne by done. apply Hc.
    + eexists. split; [apply list_lookup_insert_eq; lia|].
      intros j' Hj'. destruct (decide (j' = j)) as [->|Hne].
      * rewrite list_lookup_insert_eq by lia. done.
      * rewrite list_lookup_insert_ne by done. apply Hrow. lia.
  - exists tab. split; [exact Htab|]. split; [done|done|].
    intros i Hi. simpl in Hi. assert (i = 0) as -> by lia. rewrite H0. f_equal.
    apply lev_row_intro; [by apply (Hc 0)|].
    intros j Hj. rewrite Hrow by (fold n; lia). rewrite take_0, lev_nil_l.
    rewrite length_take. do 2 f_equal. fold n. lia.
Qed.

Lemma trie_fuzzy_walk root subk k subq query :
  (0 < Z.of_nat (length query) + k + 1)%Z → length subq ≤ length query →
  ∃ out, FBTrie.trie_fuzzy root subk k subq query = Some out
    ∧ ∀ r, In r out ↔
        In r (fb_walk k subq query (Z.to_nat (Z.of_nat (length query) + k + 1))
                root subk 1 []).
Proof.
  intros Hk Hsubq. unfold FBTrie.trie_fuzzy.
  destruct (new_table_rows query k Hk) as (tab & -> & Htab). cbn [mbind option_bind].
  destruct (trie_fuzzy__walk k subq query _ root Hsubq subk 1 [] tab Htab)
    as (out & tab' & Heq & _ & Hout).
  cbn [length Nat.add] in Heq. rewrite Heq. by exists out.
Qed.

(** Every pair of the walk carries the distance of a word the trie holds. *)
Lemma fb_walk_sound k subq query rows nd :
  ∀ subk phase sofar x d,
    In (x, d) (fb_walk k subq query rows nd subk phase sofar) →
    d = Z.of_nat (lev x query) ∧ (d ≤ k)%Z
    ∧ (∃ s, x = sofar ++ s ∧ holds nd s) ∧ length x + 1 < rows.
Proof.
  induction nd as [cs IH] using node_ind. intros subk phase sofar x d Hin.
  rewrite fb_walk_unfold in Hin. case_bool_decide as Hrows; [done|].
  apply in_flat_map in Hin as ([c child] & Hc & Hin).
  rewrite Forall_forall in IH. specialize (IH _ (proj2 (list_elem_of_In _ _) Hc)).
  unfold fb_walk_item in Hin. cbn [fst snd] in *.
  destruct (bool_decide (c = NUL) && bool_decide (Z.of_nat (lev sofar query) ≤ k)%Z) eqn:E.
  - destruct Hin as [[= <- <-]|[]].
    apply andb_true_iff in E as [->%bool_decide_eq_true E%bool_decide_eq_true].
    split; [done|]. split; [done|]. split; [|lia].
    exists []. rewrite app_nil_r. split; [done|]. by exists child.
  - destruct (fb_verdict _ _ _ _ _ _) as [subk' phase'|]; [|done].
    destruct (IH _ _ _ _ _ Hin) as (? & ? & (s & -> & Hs) & ?).
    split; [done|]. split; [done|]. split; [|done].
    exists (c :: s). rewrite <- app_assoc. split; [done|]. by exists child.
Qed.

(** In phase 2 the walk finds every held word within budget above the
    cutoff, as the plain walk does. *)
Lemma fb_walk_phase2 k subq query rows s :
  ∀ nd sofar,
    holds nd s → term_free s →
    (Z.of_nat (lev (sofar ++ s) query) ≤ k)%Z → length (sofar ++ s) + 1 < rows →
    In (sofar ++ s, Z.of_nat (lev (sofar ++ s) query))
       (fb_walk k subq query rows nd k 2 sofar).
Proof.
  unfold holds, term_free.
  induction s as [|c s IH]; intros [cs] sofar Hs Hfree Hlev Hlen;
    rewrite fb_walk_unfold; rewrite length_app in Hlen; cbn [length] in Hlen;
    rewrite bool_decide_eq_false_2 by lia.
  - destruct Hs as (child & Hin & _). cbn [items] in Hin. rewrite app_nil_r in *.
    apply in_flat_map. exists (NUL, child). split; [done|].
    unfold fb_walk_item. cbn [fst snd].
    rewrite !bool_decide_eq_true_2 by done. by left.
  - destruct Hs as (child & Hin & Hs). cbn [items] in Hin.
    apply not_elem_of_cons in Hfree as [Hc Hfree].
    apply in_flat_map. exists (c, child). split; [done|].
    unfold fb_walk_item, fb_verdict. cbn [fst snd].
    rewrite (bool_decide_eq_false_2 (c = NUL)) by done.
    rewrite (bool_decide_eq_false_2 (2 = 1)) by lia. cbn [andb].
    replace (sofar ++ c :: s) with ((sofar ++ [c]) ++ s) in * by by rewrite <- app_assoc.
    destruct (lev_prefix (sofar ++ [c]) s query) as (j & Hj & Hle).
    pose proof (row_min_le (sofar ++ [c]) query j Hj).
    rewrite (bool_decide_eq_true_2 (row_min _ _ ≤ k)%Z) by lia.
    apply IH; [done..|]. rewrite !length_app. simpl. lia.
Qed.

(** In phase 1 the walk finds a held word within budget as soon as some
    non-empty part [s1] of what is left of it brings the path within [subk]
    of the half query. *)
Lemma fb_walk_phase1 k subq query rows subk s1 :
  ∀ nd sofar s2,
    s1 ≠ [] → holds nd (s1 ++ s2) → term_free (s1 ++ s2) →
    length subq ≤ length query →
    (Z.of_nat (lev (sofar ++ s1) (take (length subq) query)) ≤ subk)%Z →
    (Z.of_nat (lev (sofar ++ s1 ++ s2) query) ≤ k)%Z →
    length (sofar ++ s1 ++ s2) + 1 < rows →
    In (sofar ++ s1 ++ s2, Z.of_nat (lev (sofar ++ s1 ++ s2) query))
       (fb_walk k subq query rows nd subk 1 sofar).
Proof.
  unfold holds, term_free.
  induction s1 as [|c s1 IH]; intros [cs] sofar s2 Hne Hs Hfree Hsubq Hhalf Hlev Hlen;
    [done|].
  rewrite fb_walk_unfold. rewrite !length_app in Hlen. cbn [length] in Hlen.
  rewrite bool_decide_eq_false_2 by lia.
  cbn [app] in Hs, Hfree. destruct Hs as (child & Hin & Hs). cbn [items] in Hin.
  apply not_elem_of_cons in Hfree as [Hc Hfree].
  apply in_flat_map. exists (c, child). split; [done|].
  unfold fb_walk_item. cbn [fst snd].
  rewrite (bool_decide_eq_false_2 (c = NUL)) by done. cbn [andb].
  replace (sofar ++ (c :: s1) ++ s2) with ((sofar ++ [c]) ++ s1 ++ s2) in *
    by by rewrite <- app_assoc.
  replace (sofar ++ c :: s1) with ((sofar ++ [c]) ++ s1) in * by by rewrite <- app_assoc.
  unfold fb_verdict.
  rewrite (bool_decide_eq_true_2 (1 = 1)) by done. cbn [andb].
  destruct (bool_decide_reflect
              (Z.of_nat (lev (sofar ++ [c]) (take (length subq) query)) ≤ subk)%Z)
    as [Hcol|Hcol].
  - apply (fb_walk_phase2 k subq query rows (s1 ++ s2) child (sofar ++ [c]));
      [done..|]. rewrite !length_app. simpl. lia.
  - destruct (lev_prefix (sofar ++ [c]) s1 (take (length subq) query)) as (j & Hj & Hle).
    rewrite length_take in Hj. rewrite take_take in Hle.
    replace (j `min` length subq) with j in Hle by lia.
    pose proof (row_min_le (sofar ++ [c]) query j ltac:(lia)).
    rewrite (bool_decide_eq_true_2 (row_min _ _ ≤ subk)%Z) by lia.
    apply IH; try done.
    + intros ->. rewrite app_nil_r in Hhalf. done.
    + rewrite !length_app. simpl. lia.
Qed.

Lemma lev_single c t : t ≠ [] → lev [c] t ≤ length t.
Proof.
  destruct t as [|b t]; [done|]. intros _. rewrite lev_cons, lev_nil_l. simpl.
  pose proof (cost_le_1 c b). unfold min3. lia.
Qed.

(** One search of a trie finds a held word within budget, above the cutoff,
    whenever some first part of the word is within [subk] of a non-empty
    half query. *)
Lemma fb_walk_complete k subq query rows subk nd y1 y2 :
  holds nd (y1 ++ y2) → term_free (y1 ++ y2) →
  0 < length subq ≤ length query →
  (Z.of_nat (lev y1 (take (length subq) query)) ≤ subk)%Z →
  (Z.of_nat (lev (y1 ++ y2) query) ≤ k)%Z →
  length (y1 ++ y2) + 1 < rows →
  In (y1 ++ y2, Z.of_nat (lev (y1 ++ y2) query))
     (fb_walk k subq query rows nd subk 1 []).
Proof.
  intros Hs Hfree [Hpos Hsubq] Hhalf Hlev Hlen.
  destruct y1 as [|c y1].
  - destruct y2 as [|c y2].
    + destruct nd as [cs]. rewrite fb_walk_unfold. simpl in Hlen.
      rewrite bool_decide_eq_false_2 by (simpl; lia).
      destruct Hs as (child & Hin & _). cbn [items] in Hin.
      apply in_flat_map. exists (NUL, child). split; [done|].
      unfold fb_walk_item. cbn [fst snd app] in *.
      rewrite !bool_decide_eq_true_2 by done. by left.
    + apply (fb_walk_phase1 k subq query rows subk [c] nd [] y2); try done.
      rewrite lev_nil_l, length_take in Hhalf.
      assert (take (length subq) query ≠ []) as Hne.
      { intros E%(f_equal length). rewrite length_take in E. simpl in E. lia. }
      pose proof (lev_single c _ Hne) as Hc. rewrite length_take in Hc. cbn [app]. lia.
  - by apply (fb_walk_phase1 k subq query rows subk (c :: y1) nd [] y2).
Qed.

(** A script against [q1 ++ q2] splits into a script against [q1] and one
    against [q2]. *)
Lemma script_split x q n :
  script x q n →
  ∀ q1 q2, q = q1 ++ q2 →
    ∃ x1 x2 n1 n2, x = x1 ++ x2 ∧ script x1 q1 n1 ∧ script x2 q2 n2 ∧ n1 + n2 ≤ n.
Proof.
  induction 1 as [|a s t n Hs IH|a b s t n Hs IH|a s t n Hs IH|b s t n Hs IH];
    intros q1 q2 E.
  - apply eq_sym, app_eq_nil in E as [-> ->].
    exists [], [], 0, 0. repeat split; [constructor..|lia].
  - destruct q1 as [|a' q1]; simplify_eq/=.
    + exists [], (a :: s), 0, n. repeat split; [constructor|by constructor|lia].
    + destruct (IH q1 q2 eq_refl) as (x1 & x2 & n1 & n2 & -> & ? & ? & ?).
      exists (a' :: x1), x2, n1, n2. repeat split; [by constructor|done|lia].
  - destruct q1 as [|a' q1]; simplify_eq/=.
    + exists [], (a :: s), 0, (S n). repeat split; [constructor|by constructor|lia].
    + destruct (IH q1 q2 eq_refl) as (x1 & x2 & n1 & n2 & -> & ? & ? & ?).
      exists (a :: x1), x2, (S n1), n2. repeat split; [by constructor|done|lia].
  - destruct (IH q1 q2 E) as (x1 & x2 & n1 & n2 & -> & ? & ? & ?).
    exists (a :: x1), x2, (S n1), n2. repeat split; [by constructor|done|lia].
  - destruct q1 as [|b' q1]; simplify_eq/=.
    + exists [], s, 0, (S n). repeat split; [constructor|by constructor|lia].
    + destruct (IH q1 q2 eq_refl) as (x1 & x2 & n1 & n2 & -> & ? & ? & ?).
      exists x1, x2, (S n1), n2. repeat split; [by constructor|done|lia].
Qed.

Lemma lev_split x q1 q2 :
  ∃ x1 x2, x = x1 ++ x2 ∧ lev x1 q1 + lev x2 q2 ≤ lev x (q1 ++ q2).
Proof.
  destruct (script_split _ _ _ (script_lev x (q1 ++ q2)) q1 q2 eq_refl)
    as (x1 & x2 & n1 & n2 & -> & H1%lev_script & H2%lev_script & ?).
  exists x1, x2. split; [done|lia].
Qed.

Lemma k1_k2_sum k : (FBTrie.k1 k + FBTrie.k2 k = k - 1)%Z.
Proof. unfold FBTrie.k1, FBTrie.k2. Z.to_euclidean_division_equations. lia. Qed.

Lemma half_bounds n : n / 2 ≤ n ∧ (2 ≤ n → 0 < n / 2) ∧ (1 ≤ n → 0 < n - n / 2).
Proof.
  pose proof (Nat.div_mod_eq n 2). pose proof (Nat.mod_upper_bound n 2). lia.
Qed.

(** [FBTrie.fuzzy] on the tries built from [ws], in terms of the two walks. *)
Lemma fb_fuzzy_walks ws query k :
  (0 < Z.of_nat (length query) + k + 1)%Z →
  let rows := Z.to_nat (Z.of_nat (length query) + k + 1) in
  let q1 := take (length query / 2) query in
  let q2 := drop (length query / 2) query in
  ∃ out, FBTrie.fuzzy (FBTrie.build ws) query k = Some out
    ∧ ∀ x d, In (x, d) out ↔
        In (x, d) (fb_walk k q1 query rows (Trie.build ws) (FBTrie.k1 k) 1 [])
        ∨ In (reverse x, d)
             (fb_walk k (reverse q2) (reverse query) rows
                (Trie.build (map reverse ws)) (FBTrie.k2 k) 1 []).
Proof.
  intros Hk. cbv zeta. unfold FBTrie.fuzzy. destruct (fb_build_mirror ws) as [-> ->].
  destruct (half_bounds (length query)) as (Hhalf & _).
  destruct (trie_fuzzy_walk (Trie.build ws) (FBTrie.k1 k) k
              (take (length query / 2) query) query Hk) as (out_f & -> & Hf).
  { rewrite length_take. lia. }
  destruct (trie_fuzzy_walk (Trie.build (map reverse ws)) (FBTrie.k2 k) k
              (reverse (drop (length query / 2) query)) (reverse query))
    as (out_b & -> & Hb).
  { rewrite length_reverse. done. }
  { rewrite !length_reverse, length_drop. lia. }
  rewrite length_reverse in Hb.
  cbn [mbind option_bind]. eexists. split; [done|].
  intros x d. rewrite in_app_iff, Hf, in_map_iff. split.
  - intros [?|([x' d'] & [= <- <-] & Hin)]; [by left|]. right.
    apply Hb. by rewrite reverse_involutive.
  - intros [?|Hin]; [by left|]. right. exists (reverse x, d). cbn [fst snd].
    rewrite reverse_involutive. split; [done|]. by apply Hb.
Qed.

(** What [FBTrie.fuzzy] yields comes from the dictionary, with its distance
    to the query, within budget and below the cutoff. *)
Lemma fb_fuzzy_build_sound ws query k :
  Forall term_free ws → (0 < Z.of_nat (length query) + k + 1)%Z →
  ∃ out, FBTrie.fuzzy (FBTrie.build ws) query k = Some out
    ∧ ∀ x d, In (x, d) out →
        In x ws ∧ d = Z.of_nat (lev x query) ∧ (d ≤ k)%Z
        ∧ (Z.of_nat (length x) < Z.of_nat (length query) + k)%Z.
Proof.
  intros Hws Hk. destruct (fb_fuzzy_walks ws query k Hk) as (out & Hout & Hin).
  exists out. split; [done|]. intros x d [Hx|Hx]%Hin.
  - apply fb_walk_sound in Hx as (-> & ? & (s & -> & Hs) & ?). cbn [app] in *.
    split; [by apply (holds_build ws s Hws)|]. split; [done|]. split; [done|lia].
  - apply fb_walk_sound in Hx as (-> & ? & (s & Hs' & Hs) & Hlen). cbn [app] in *.
    subst s. rewrite length_reverse in Hlen. rewrite lev_reverse in *.
    split; [|split; [done|split; [done|lia]]].
    apply holds_build in Hs.
    + apply in_map_iff in Hs as (y & Hy & ?).
      apply (f_equal reverse) in Hy. rewrite !reverse_involutive in Hy. by subst.
    + by apply term_free_map_reverse.
Qed.

(** For a query of at least two symbols, [FBTrie.fuzzy] yields every word of
    the dictionary within budget and below the cutoff. *)
Lemma fb_fuzzy_build_complete ws query k x :
  Forall term_free ws → (0 ≤ k)%Z → 2 ≤ length query →
  In x ws → (Z.of_nat (lev x query) ≤ k)%Z →
  (Z.of_nat (length x) < Z.of_nat (length query) + k)%Z →
  ∃ out, FBTrie.fuzzy (FBTrie.build ws) query k = Some out
         ∧ In (x, Z.of_nat (lev x query)) out.
Proof.
  intros Hws Hk Hn Hx Hlev Hlen.
  destruct (fb_fuzzy_walks ws query k ltac:(lia)) as (out & Hout & Hin).
  exists out. split; [done|]. apply Hin. clear Hin Hout.
  assert (term_free x) as Hfree.
  { rewrite Forall_forall in Hws. by apply Hws, list_elem_of_In. }
  destruct (half_bounds (length query)) as (Hhalf & Hq1 & Hq2).
  set (m := length query / 2) in *.
  destruct (lev_split x (take m query) (drop m query)) as (x1 & x2 & -> & Hsplit).
  rewrite take_drop in Hsplit. pose proof (k1_k2_sum k) as Hsum.
  destruct (decide (Z.of_nat (lev x1 (take m query)) ≤ FBTrie.k1 k)%Z) as [H1|H1].
  - left. apply fb_walk_complete; try done.
    + by apply holds_build.
    + rewrite length_take. lia.
    + rewrite length_take. by replace (m `min` length query) with m by lia.
    + lia.
  - right. rewrite reverse_app.
    rewrite <- (lev_reverse (x1 ++ x2) query), reverse_app.
    apply fb_walk_complete.
    + apply holds_build.
      * by apply term_free_map_reverse.
      * rewrite <- reverse_app. apply in_map_iff. by exists (x1 ++ x2).
    + rewrite <- reverse_app. by apply term_free_reverse.
    + rewrite !length_reverse, length_drop. lia.
    + rewrite <- (take_drop m query) at 2. rewrite reverse_app, take_app_length.
      rewrite lev_reverse. lia.
    + rewrite <- reverse_app, lev_reverse. done.
    + rewrite <- reverse_app, length_reverse. lia.
Qed.

End fb_walk_facts.

(** ** Budgets below zero and prefix mode *)

Section mode_facts.
Local Open Scope nat_scope.

Lemma new_table_none n k :
  (Z.of_nat n + k + 1 ≤ 0)%Z → new_table n k = None.
Proof.
  intros Hk. unfold new_table.
  replace (Z.to_nat (Z.of_nat n + k + 1)) with 0 by lia.
  by replace (n + 1) with (S n) by lia.
Qed.

Lemma fuzzy_walk_rows root query k :
  (0 < Z.of_nat (length query) + k + 1)%Z →
  Trie.fuzzy root query k
  = Some (walk k query (Z.to_nat (Z.of_nat (length query) + k + 1)) root []).
Proof.
  intros Hk. unfold Trie.fuzzy, Trie.fuzzy_with.
  destruct (new_table_rows query k Hk) as (tab & -> & Htab). cbn [mbind option_bind default].
  destruct (fuzzy__walk k query _ root [] tab Htab) as (tab' & Heq & _).
  cbn [length Nat.add] in Heq. by rewrite Heq.
Qed.

Lemma results_nil (out : results) : (∀ x d, ¬ In (x, d) out) → out = [].
Proof. destruct out as [|[x d] out]; [done|]. intros H. destruct (H x d). by left. Qed.

Lemma walk_prefix_unfold k query rows cs sofar :
  walk_prefix k query rows (Node cs) sofar
  = if bool_decide (length query + 1 ≤ length sofar + 1) then
      if bool_decide (Z.of_nat (lev sofar query) ≤ k)%Z
      then Trie.traverse (Z.of_nat (lev sofar query)) (Node cs) sofar else []
    else if bool_decide (rows ≤ length sofar + 1) then []
    else flat_map (walk_item k query sofar (walk_prefix k query rows)) cs.
Proof. reflexivity. Qed.

(** [fuzzy_] in prefix mode yields what [walk_prefix] says. *)
Lemma fuzzy__walk_prefix k query rows nd :
  ∀ sofar tab,
    table_ok query rows sofar tab →
    ∃ tab', Trie.fuzzy_ (λ _, k) query true nd (length sofar + 1) sofar tab
            = Some (walk_prefix k query rows nd sofar, tab')
          ∧ table_ok query rows sofar tab'.
Proof.
  induction nd as [cs IH] using node_ind. intros sofar tab Htab.
  rewrite fuzzy__unfold, walk_prefix_unfold. cbn [andb].
  destruct (bool_decide (length query + 1 ≤ length sofar + 1)).
  { rewrite Nat.add_sub, (table_ok_get2 _ _ _ _ _ Htab (le_n _)), firstn_all.
    cbn [mbind option_bind]. by exists tab. }
  rewrite (ok_rows _ _ _ _ Htab).
  destruct (bool_decide_reflect (rows ≤ length sofar + 1)) as [Hle|Hlt].
  { by exists tab. }
  apply fuzzy_items_walk; [lia| |done].
  eapply Forall_impl; [exact IH|]. intros [c child] Hchild tab1 Htab1. cbn [fst snd] in *.
  specialize (Hchild (sofar ++ [c]) tab1 Htab1).
  rewrite length_app in Hchild. exact Hchild.
Qed.

Lemma fuzzy_prefix_walk root query k :
  (0 < Z.of_nat (length query) + k + 1)%Z →
  Trie.fuzzy_with root query k None true
  = Some (walk_prefix k query (Z.to_nat (Z.of_nat (length query) + k + 1)) root []).
Proof.
  intros Hk. unfold Trie.fuzzy_with.
  destruct (new_table_rows query k Hk) as (tab & -> & Htab). cbn [mbind option_bind default].
  destruct (fuzzy__walk_prefix k query _ root [] tab Htab) as (tab' & Heq & _).
  cbn [length Nat.add] in Heq. by rewrite Heq.
Qed.

(** The distance prefix mode reports for the word [x]: that of the word when
    it is shorter than the query, else that of its first [len(query)]
    symbols. *)
Lemma walk_prefix_sound k query rows nd :
  ∀ sofar x d,
    length sofar ≤ length query →
    In (x, d) (walk_prefix k query rows nd sofar) →
    (d ≤ k)%Z ∧ d = Z.of_nat (lev (take (length query) x) query)
    ∧ ∃ s, x = sofar ++ s ∧ holds nd s.
Proof.
  induction nd as [cs IH] using node_ind. intros sofar x d Hlen Hin.
  rewrite walk_prefix_unfold in Hin.
  destruct (bool_decide_reflect (length query + 1 ≤ length sofar + 1)) as [Hfull|Hshort].
  - destruct (bool_decide_reflect (Z.of_nat (lev sofar query) ≤ k)%Z); [|done].
    apply traverse_spec in Hin as (-> & s & -> & _ & Hs).
    rewrite take_app_le, take_ge by lia. eauto.
  - destruct (bool_decide (rows ≤ _)); [done|].
    apply in_flat_map in Hin as ([c child] & Hc & Hin).
    rewrite Forall_forall in IH. specialize (IH _ (proj2 (list_elem_of_In _ _) Hc)).
    unfold walk_item in Hin. cbn [fst snd] in *.
    destruct (bool_decide (c = NUL) && bool_decide (Z.of_nat (lev sofar query) ≤ k)%Z) eqn:E.
    + destruct Hin as [[= <- <-]|[]].
      apply andb_true_iff in E as [->%bool_decide_eq_true E%bool_decide_eq_true].
      rewrite take_ge by lia. split; [done|]. split; [done|].
      exists []. rewrite app_nil_r. split; [done|]. by exists child.
    + destruct (bool_decide (row_min _ _ ≤ k)%Z); [|done].
      destruct (IH (sofar ++ [c]) x d) as (? & ? & s & -> & Hs); [|done|].
      { rewrite length_app. simpl. lia. }
      split; [done|]. split; [done|].
      exists (c :: s). rewrite <- app_assoc. split; [done|]. by exists child.
Qed.

Lemma walk_prefix_complete k query rows s :
  ∀ nd sofar,
    holds nd s → term_free s → length sofar ≤ length query < rows →
    (Z.of_nat (lev (take (length query) (sofar ++ s)) query) ≤ k)%Z →
    In (sofar ++ s, Z.of_nat (lev (take (length query) (sofar ++ s)) query))
       (walk_prefix k query rows nd sofar).
Proof.
  induction s as [|c s IH]; intros [cs] sofar Hs Hfree Hlen Hlev;
    rewrite walk_prefix_unfold;
    (destruct (bool_decide_reflect (length query + 1 ≤ length sofar + 1)) as [Hfull|Hshort];
     [rewrite take_app_le, take_ge in * by lia;
      rewrite bool_decide_eq_true_2 by done;
      apply traverse_spec; split; [done|]; eauto|]);
    rewrite bool_decide_eq_false_2 by lia.
  - unfold holds in Hs. destruct Hs as (child & Hin & _). cbn [items] in Hin.
    rewrite app_nil_r in *. rewrite take_ge in * by lia.
    apply in_flat_map. exists (NUL, child). split; [done|].
    unfold walk_item. cbn [fst snd].
    rewrite !bool_decide_eq_true_2 by done. by left.
  - unfold holds in Hs. destruct Hs as (child & Hin & Hs). cbn [items] in Hin.
    pose proof Hfree as Hfree'. unfold term_free in Hfree'.
    apply not_elem_of_cons in Hfree' as [Hc Hfree'].
    apply in_flat_map. exists (c, child). split; [done|].
    unfold walk_item. cbn [fst snd].
    rewrite (bool_decide_eq_false_2 (c = NUL)) by done. cbn [andb].
    replace (sofar ++ c :: s) with ((sofar ++ [c]) ++ s) in * by by rewrite <- app_assoc.
    assert (row_min (sofar ++ [c]) query ≤ k)%Z as Hmin.
    { rewrite take_app_ge in Hlev by (rewrite length_app; simpl; lia).
      destruct (lev_prefix (sofar ++ [c])
                  (take (length query - length (sofar ++ [c])) s) query) as (j & Hj & Hle).
      pose proof (row_min_le (sofar ++ [c]) query j Hj). lia. }
    rewrite bool_decide_eq_true_2 by done.
    apply IH; [done|done| |done]. rewrite length_app. simpl. lia.
Qed.

(** With the first-half budget equal to the full budget the phases make no
    difference: the walk yields the pairs of the plain walk. *)
Lemma fb_walk_full_budget k subq query rows nd :
  ∀ phase sofar r,
    In r (fb_walk k subq query rows nd k phase sofar) ↔ In r (walk k query rows nd sofar).
Proof.
  induction nd as [cs IH] using node_ind. intros phase sofar r.
  rewrite fb_walk_unfold, walk_unfold. destruct (bool_decide (rows ≤ _)); [done|].
  assert (∀ e, In e cs →
    In r (fb_walk_item k k subq query phase sofar (fb_walk k subq query rows) e)
    ↔ In r (walk_item k query sofar (walk k query rows) e)) as Hitem.
  { intros [c child] Hc.
    rewrite Forall_forall in IH. specialize (IH _ (proj2 (list_elem_of_In _ _) Hc)).
    unfold fb_walk_item, walk_item, fb_verdict. cbn [fst snd] in *.
    destruct (bool_decide (c = NUL) && bool_decide (Z.of_nat (lev sofar query) ≤ k)%Z);
      [done|].
    assert (row_min (sofar ++ [c]) query
            ≤ Z.of_nat (lev (sofar ++ [c]) (take (length subq) query)))%Z as Hcol.
    { destruct (decide (length subq ≤ length query)) as [Hle|Hgt].
      - by apply row_min_le.
      - rewrite take_ge by lia.
        pose proof (row_min_le (sofar ++ [c]) query (length query) (le_n _)) as H.
        by rewrite firstn_all in H. }
    destruct (bool_decide_reflect (row_min (sofar ++ [c]) query ≤ k)%Z) as [Hmin|Hmin].
    - destruct (_ && _); apply IH.
    - rewrite (bool_decide_eq_false_2
                 (Z.of_nat (lev (sofar ++ [c]) (take (length subq) query)) ≤ k)%Z) by lia.
      by rewrite andb_false_r. }
  rewrite !in_flat_map. split; intros (e & He & Hr); exists e; (split; [done|]);
    by apply (Hitem e He).
Qed.

End mode_facts.

(** ** Further theorems *)

Section further.
Local Open Scope nat_scope.

Lemma cat_words_term_free : Forall term_free cat_words.
Proof. apply (bool_decide_unpack _). vm_compute. exact I. Defined.

Lemma traverse_build_In ws d x d' :
  Forall term_free ws →
  In (x, d') (Trie.traverse d (Trie.build ws) []) ↔ In x ws ∧ d' = d.
Proof.
  intros Hws. rewrite traverse_spec. cbn [app]. split.
  - intros (-> & s & -> & _ & Hs). split; [|done]. by apply (holds_build ws s Hws).
  - intros [Hx ->]. split; [done|]. exists x. split; [done|]. split.
    + rewrite Forall_forall in Hws. by apply Hws, list_elem_of_In.
    + by apply holds_build.
Qed.

Lemma NoDup_map_fst (out : results) : NoDup (map fst out) → NoDup out.
Proof.
  induction out as [|r out IH]; [constructor|]. cbn [map].
  intros [Hr Hout]%NoDup_cons. apply NoDup_cons. split; [|by apply IH].
  intros Hin. apply Hr, list_elem_of_In, in_map. by apply list_elem_of_In.
Qed.

Lemma trie_fuzzy_negative root subk k subq query :
  (k < 0)%Z → (0 < Z.of_nat (length query) + k + 1)%Z → length subq ≤ length query →
  FBTrie.trie_fuzzy root subk k subq query = Some [].
Proof.
  intros Hneg Hk Hsubq.
  destruct (trie_fuzzy_walk root subk k subq query Hk Hsubq) as (out & -> & Hout).
  f_equal. apply results_nil. intros x d Hin%Hout.
  apply fb_walk_sound in Hin as (-> & ? & _). lia.
Qed.

(** X1.  Inserting a word a second time leaves the trie as it is, for the
    plain trie and for the forward/backward pair. *)
Theorem insert_twice (x : word) (t : node) (fb : FBTrie.t) :
  Trie.insert x (Trie.insert x t) = Trie.insert x t
  ∧ FBTrie.insert x (FBTrie.insert x fb) = FBTrie.insert x fb.
Proof.
  unfold FBTrie.insert, Trie.insert. cbn [FBTrie.f FBTrie.b].
  by rewrite !insert_path_idem.
Qed.

(** X2.  After [insert(x)] of a terminator-free word, [traverse] from the
    root enumerates the words it enumerated before and [x], and nothing
    else. *)
Theorem traverse_after_insert (x : word) (t : node) (d : Z) :
  term_free x →
  ∀ s d', In (s, d') (Trie.traverse d (Trie.insert x t) [])
          ↔ In (s, d') (Trie.traverse d t []) ∨ (s = x ∧ d' = d).
Proof.
  intros Hx s d'. rewrite !traverse_spec. cbn [app]. unfold holds, Trie.insert. split.
  - intros (-> & s0 & -> & Hfree & [Hp|Hpre]%has_path_insert_path).
    + left. split; [done|]. by exists s0.
    + right. split; [|done]. by apply (prefix_terminated x Hx).
  - intros [(-> & s0 & -> & Hfree & Hp)|[-> ->]].
    + split; [done|]. exists s0. split; [done|]. split; [done|].
      apply has_path_insert_path. by left.
    + split; [done|]. exists x. split; [done|]. split; [done|].
      apply has_path_insert_path. by right.
Qed.

Lemma traverse_after_insert_witness :
  term_free (w "cat")
  ∧ ∀ s d', In (s, d') (Trie.traverse 0 (Trie.insert (w "cat") (Trie.build [w "bat"])) [])
            ↔ In (s, d') (Trie.traverse 0 (Trie.build [w "bat"]) [])
              ∨ (s = w "cat" ∧ d' = 0%Z).
Proof.
  assert (term_free (w "cat")) as Hx by (apply (bool_decide_unpack _); vm_compute; exact I).
  split; [exact Hx|].
  exact (traverse_after_insert (w "cat") (Trie.build [w "bat"]) 0 Hx).
Defined.

(** X3.  [traverse] from the root of a trie built from terminator-free words
    enumerates exactly the inserted words, each once, paired with the
    distance it was given. *)
Theorem traverse_build (ws : list word) (d : Z) :
  Forall term_free ws →
  NoDup (map fst (Trie.traverse d (Trie.build ws) []))
  ∧ ∀ x d', In (x, d') (Trie.traverse d (Trie.build ws) []) ↔ In x ws ∧ d' = d.
Proof.
  intros Hws. split.
  - apply traverse_NoDup, build_uniq.
  - intros x d'. by apply traverse_build_In.
Qed.

Lemma traverse_build_witness :
  Forall term_free cat_words
  ∧ NoDup (map fst (Trie.traverse 5 (Trie.build cat_words) []))
  ∧ ∀ x d', In (x, d') (Trie.traverse 5 (Trie.build cat_words) [])
            ↔ In x cat_words ∧ d' = 5%Z.
Proof.
  split; [exact cat_words_term_free|].
  exact (traverse_build cat_words 5 cat_words_term_free).
Defined.

(** X4.  [FBTrie.insert] keeps the two tries mirrored: the backward trie
    holds a word exactly when the forward trie holds its reversal. *)
Theorem fb_tries_mirror (ws : list word) (d : Z) :
  Forall term_free ws →
  ∀ x d', In (x, d') (Trie.traverse d (FBTrie.b (FBTrie.build ws)) [])
          ↔ In (reverse x, d') (Trie.traverse d (FBTrie.f (FBTrie.build ws)) []).
Proof.
  intros Hws x d'. destruct (fb_build_mirror ws) as [-> ->].
  rewrite !traverse_build_In by (done || by apply term_free_map_reverse).
  rewrite in_map_iff. split.
  - intros [(y & <- & Hy) ->]. by rewrite reverse_involutive.
  - intros [Hx ->]. split; [|done]. exists (reverse x). by rewrite reverse_involutive.
Qed.

Lemma fb_tries_mirror_witness :
  Forall term_free cat_words
  ∧ ∀ x d', In (x, d') (Trie.traverse 0 (FBTrie.b (FBTrie.build cat_words)) [])
            ↔ In (reverse x, d') (Trie.traverse 0 (FBTrie.f (FBTrie.build cat_words)) []).
Proof.
  split; [exact cat_words_term_free|].
  exact (fb_tries_mirror cat_words 0 cat_words_term_free).
Defined.

(** X5.  Every pair [FBTrie.fuzzy] yields is also yielded by [Trie.fuzzy]
    over the same terminator-free dictionary. *)
Theorem fb_fuzzy_within_plain (ws : list word) (query : word) (k : Z) :
  Forall term_free ws → (0 ≤ k)%Z →
  ∃ out_fb out,
    FBTrie.fuzzy (FBTrie.build ws) query k = Some out_fb
    ∧ Trie.fuzzy (Trie.build ws) query k = Some out
    ∧ ∀ r, In r out_fb → In r out.
Proof.
  intros Hws Hk.
  destruct (fb_fuzzy_build_sound ws query k Hws ltac:(lia)) as (out_fb & Hfb & Hsound).
  destruct (fuzzy_build_exact ws query k Hws Hk) as (out & Hout & Hexact).
  exists out_fb, out. split; [done|]. split; [done|].
  intros [x d] Hin. by apply Hexact, Hsound.
Qed.

Lemma fb_fuzzy_within_plain_witness :
  Forall term_free cat_words ∧ (0 ≤ 2)%Z
  ∧ ∃ out_fb out,
      FBTrie.fuzzy (FBTrie.build cat_words) (w "ct") 2 = Some out_fb
      ∧ Trie.fuzzy (Trie.build cat_words) (w "ct") 2 = Some out
      ∧ ∀ r, In r out_fb → In r out.
Proof.
  split; [exact cat_words_term_free|]. split; [lia|].
  apply (fb_fuzzy_within_plain cat_words (w "ct") 2 cat_words_term_free). lia.
Defined.

(** X6.  For a query of at least two symbols the forward/backward search
    and the plain search yield the same set of pairs over the same
    terminator-free dictionary. *)
Theorem fb_fuzzy_equals_plain (ws : list word) (query : word) (k : Z) :
  Forall term_free ws → (0 ≤ k)%Z → 2 ≤ length query →
  ∃ out_fb out,
    FBTrie.fuzzy (FBTrie.build ws) query k = Some out_fb
    ∧ Trie.fuzzy (Trie.build ws) query k = Some out
    ∧ ∀ r, In r out_fb ↔ In r out.
Proof.
  intros Hws Hk Hn.
  destruct (fb_fuzzy_build_sound ws query k Hws ltac:(lia)) as (out_fb & Hfb & Hsound).
  destruct (fuzzy_build_exact ws query k Hws Hk) as (out & Hout & Hexact).
  exists out_fb, out. split; [done|]. split; [done|].
  intros [x d]. split; [intros Hin; by apply Hexact, Hsound|].
  intros (Hx & -> & Hle & Hlen)%Hexact.
  destruct (fb_fuzzy_build_complete ws query k x Hws Hk Hn Hx Hle Hlen) as (out2 & Heq & Hin).
  rewrite Hfb in Heq. by injection Heq as <-.
Qed.

Lemma fb_fuzzy_equals_plain_witness :
  Forall term_free cat_words ∧ (0 ≤ 2)%Z ∧ 2 ≤ length (w "cat")
  ∧ ∃ out_fb out,
      FBTrie.fuzzy (FBTrie.build cat_words) (w "cat") 2 = Some out_fb
      ∧ Trie.fuzzy (Trie.build cat_words) (w "cat") 2 = Some out
      ∧ ∀ r, In r out_fb ↔ In r out.
Proof.
  split; [exact cat_words_term_free|]. split; [lia|]. split; [simpl; lia|].
  apply (fb_fuzzy_equals_plain cat_words (w "cat") 2 cat_words_term_free);
    [lia|simpl; lia].
Defined.

(** X7.  With [k = 0] the forward/backward search yields nothing, for every
    pair of tries and every query. *)
Theorem fb_fuzzy_zero_budget_empty (fb : FBTrie.t) (query : word) :
  FBTrie.fuzzy fb query 0 = Some [].
Proof.
  destruct (fb_fuzzy_ok fb query 0 ltac:(done)) as (out & -> & Hout).
  f_equal. apply results_nil. intros x d Hin.
  destruct (Hout x d Hin) as (-> & ? & ?).
  pose proof (lev_length_r x query). lia.
Qed.

(** X8.  A budget so negative that [n + k + 1 ≤ 0] leaves the table without
    rows, and the first assignment [tab[0][0] = 0] raises: [Trie.fuzzy], in
    both modes, and [FBTrie.fuzzy] fail. *)
Theorem fuzzy_budget_below_table (root : node) (fb : FBTrie.t) (query : word) (k : Z) :
  (Z.of_nat (length query) + k + 1 ≤ 0)%Z →
  Trie.fuzzy root query k = None
  ∧ Trie.fuzzy_with root query k None true = None
  ∧ FBTrie.fuzzy fb query k = None.
Proof.
  intros Hk. unfold Trie.fuzzy, Trie.fuzzy_with, FBTrie.fuzzy, FBTrie.trie_fuzzy.
  by rewrite (new_table_none _ _ Hk).
Qed.

Lemma fuzzy_budget_below_table_witness :
  (Z.of_nat (length (w "cat")) + -4 + 1 ≤ 0)%Z
  ∧ Trie.fuzzy (Trie.build cat_words) (w "cat") (-4) = None
  ∧ Trie.fuzzy_with (Trie.build cat_words) (w "cat") (-4) None true = None
  ∧ FBTrie.fuzzy (FBTrie.build cat_words) (w "cat") (-4) = None.
Proof.
  split; [simpl; lia|].
  apply (fuzzy_budget_below_table (Trie.build cat_words) (FBTrie.build cat_words)
           (w "cat") (-4)).
  simpl. lia.
Defined.

(** X9.  A negative budget that still leaves the table a row yields nothing
    and raises nothing, in [Trie.fuzzy] and in [FBTrie.fuzzy]. *)
Theorem fuzzy_negative_budget_empty (root : node) (fb : FBTrie.t) (query : word) (k : Z) :
  (k < 0)%Z → (0 < Z.of_nat (length query) + k + 1)%Z →
  Trie.fuzzy root query k = Some [] ∧ FBTrie.fuzzy fb query k = Some [].
Proof.
  intros Hneg Hk. split.
  - rewrite fuzzy_walk_rows by done. f_equal. apply results_nil.
    intros x d (-> & ? & _)%walk_sound. lia.
  - unfold FBTrie.fuzzy. destruct (half_bounds (length query)) as (Hhalf & _).
    rewrite (trie_fuzzy_negative (FBTrie.f fb)) by (done || rewrite length_take; lia).
    rewrite (trie_fuzzy_negative (FBTrie.b fb));
      [done|done|by rewrite length_reverse|].
    rewrite !length_reverse, length_drop. lia.
Qed.

Lemma fuzzy_negative_budget_empty_witness :
  (-1 < 0)%Z ∧ (0 < Z.of_nat (length (w "cat")) + -1 + 1)%Z
  ∧ Trie.fuzzy (Trie.build cat_words) (w "cat") (-1) = Some []
  ∧ FBTrie.fuzzy (FBTrie.build cat_words) (w "cat") (-1) = Some [].
Proof.
  split; [lia|]. split; [simpl; lia|].
  apply (fuzzy_negative_budget_empty (Trie.build cat_words) (FBTrie.build cat_words)
           (w "cat") (-1)); [lia|simpl; lia].
Defined.

(** X10.  In prefix mode, over a terminator-free dictionary and with
    [k ≥ 0], [Trie.fuzzy] yields exactly the words whose first [len(query)]
    symbols (the whole word when it is shorter) are within distance [k] of
    the query, each with that distance; no word is lost to the depth cutoff. *)
Theorem fuzzy_prefix_exact (ws : list word) (query : word) (k : Z) :
  Forall term_free ws → (0 ≤ k)%Z →
  ∃ out, Trie.fuzzy_with (Trie.build ws) query k None true = Some out
    ∧ ∀ x d, In (x, d) out ↔
        In x ws ∧ d = Z.of_nat (lev (take (length query) x) query) ∧ (d ≤ k)%Z.
Proof.
  intros Hws Hk. rewrite fuzzy_prefix_walk by lia. eexists. split; [done|].
  intros x d. split.
  - intros Hin. apply walk_prefix_sound in Hin as (? & -> & s & -> & Hs); [|simpl; lia].
    cbn [app] in *. split; [|done]. by apply (holds_build ws s Hws).
  - intros (Hx & -> & Hle).
    apply (walk_prefix_complete k query _ x (Trie.build ws) []); [| |simpl; lia|done].
    + by apply holds_build.
    + rewrite Forall_forall in Hws. by apply Hws, list_elem_of_In.
Qed.

Lemma fuzzy_prefix_exact_witness :
  Forall term_free cat_words ∧ (0 ≤ 1)%Z
  ∧ ∃ out, Trie.fuzzy_with (Trie.build cat_words) (w "ca") 1 None true = Some out
      ∧ ∀ x d, In (x, d) out ↔
          In x cat_words ∧ d = Z.of_nat (lev (take (length (w "ca")) x) (w "ca"))
          ∧ (d ≤ 1)%Z.
Proof.
  split; [exact cat_words_term_free|]. split; [lia|].
  apply (fuzzy_prefix_exact cat_words (w "ca") 1 cat_words_term_free). lia.
Defined.

(** X11.  The result of [Trie.fuzzy] does not depend on the order in which
    the words were inserted, nor on how often: two terminator-free
    dictionaries with the same words give results that are permutations of
    each other. *)
Theorem fuzzy_insertion_order (ws ws' : list word) (query : word) (k : Z) :
  Forall term_free ws → (∀ x, In x ws ↔ In x ws') → (0 ≤ k)%Z →
  ∃ out out',
    Trie.fuzzy (Trie.build ws) query k = Some out
    ∧ Trie.fuzzy (Trie.build ws') query k = Some out'
    ∧ out ≡ₚ out'.
Proof.
  intros Hws Hsame Hk.
  assert (Forall term_free ws') as Hws'.
  { rewrite Forall_forall in *. intros x Hx%list_elem_of_In%Hsame. by apply Hws, list_elem_of_In. }
  destruct (fuzzy_build_exact ws query k Hws Hk) as (out & Hout & Hexact).
  destruct (fuzzy_build_exact ws' query k Hws' Hk) as (out' & Hout' & Hexact').
  exists out, out'. split; [done|]. split; [done|].
  apply NoDup_Permutation.
  - apply NoDup_map_fst. rewrite fuzzy_walk in Hout by done. injection Hout as <-.
    apply walk_NoDup, build_uniq.
  - apply NoDup_map_fst. rewrite fuzzy_walk in Hout' by done. injection Hout' as <-.
    apply walk_NoDup, build_uniq.
  - intros [x d]. rewrite !list_elem_of_In, Hexact, Hexact', Hsame. done.
Qed.

Lemma fuzzy_insertion_order_witness :
  Forall term_free cat_words
  ∧ (∀ x, In x cat_words ↔ In x (w "rat" :: reverse cat_words))
  ∧ (0 ≤ 2)%Z
  ∧ ∃ out out',
      Trie.fuzzy (Trie.build cat_words) (w "cat") 2 = Some out
      ∧ Trie.fuzzy (Trie.build (w "rat" :: reverse cat_words)) (w "cat") 2 = Some out'
      ∧ out ≡ₚ out'.
Proof.
  assert (∀ x, In x cat_words ↔ In x (w "rat" :: reverse cat_words)) as Hsame
    by (intros x; simpl; tauto).
  split; [exact cat_words_term_free|]. split; [exact Hsame|]. split; [lia|].
  apply (fuzzy_insertion_order cat_words (w "rat" :: reverse cat_words) (w "cat") 2
           cat_words_term_free Hsame). lia.
Defined.

(** X12.  Over a terminator-free dictionary and with [k ≥ 0], [Trie.fuzzy]
    (prefix mode off) yields exactly the words within distance [k] of the
    query that are shorter than [len(query) + k], each with its distance. *)
Theorem fuzzy_exact_below_cutoff (ws : list word) (query : word) (k : Z) :
  Forall term_free ws → (0 ≤ k)%Z →
  ∃ out, Trie.fuzzy (Trie.build ws) query k = Some out
    ∧ ∀ x d, In (x, d) out ↔
        In x ws ∧ d = Z.of_nat (lev x query) ∧ (d ≤ k)%Z
        ∧ (Z.of_nat (length x) < Z.of_nat (length query) + k)%Z.
Proof. apply fuzzy_build_exact. Qed.

Lemma fuzzy_exact_below_cutoff_witness :
  Forall term_free cat_words ∧ (0 ≤ 1)%Z
  ∧ ∃ out, Trie.fuzzy (Trie.build cat_words) (w "cat") 1 = Some out
      ∧ ∀ x d, In (x, d) out ↔
          In x cat_words ∧ d = Z.of_nat (lev x (w "cat")) ∧ (d ≤ 1)%Z
          ∧ (Z.of_nat (length x) < Z.of_nat (length (w "cat")) + 1)%Z.
Proof.
  split; [exact cat_words_term_free|]. split; [lia|].
  apply (fuzzy_exact_below_cutoff cat_words (w "cat") 1 cat_words_term_free). lia.
Defined.

(** X13.  Called with the first-half budget equal to the full budget,
    [FBTrie.trie_fuzzy] yields the same set of pairs as [Trie.fuzzy], on
    every trie and whatever the half query (no longer than the query). *)
Theorem trie_fuzzy_full_budget (root : node) (subq query : word) (k : Z) :
  (0 ≤ k)%Z → length subq ≤ length query →
  ∃ out out',
    FBTrie.trie_fuzzy root k k subq query = Some out
    ∧ Trie.fuzzy root query k = Some out'
    ∧ ∀ r, In r out ↔ In r out'.
Proof.
  intros Hk Hsubq.
  destruct (trie_fuzzy_walk root k k subq query ltac:(lia) Hsubq) as (out & -> & Hout).
  rewrite fuzzy_walk by done. eexists _, _. split; [done|]. split; [done|].
  intros r. rewrite Hout. apply fb_walk_full_budget.
Qed.

Lemma trie_fuzzy_full_budget_witness :
  (0 ≤ 2)%Z ∧ length (w "c") ≤ length (w "cat")
  ∧ ∃ out out',
      FBTrie.trie_fuzzy (Trie.build cat_words) 2 2 (w "c") (w "cat") = Some out
      ∧ Trie.fuzzy (Trie.build cat_words) (w "cat") 2 = Some out'
      ∧ ∀ r, In r out ↔ In r out'.
Proof.
  split; [lia|]. split; [simpl; lia|].
  apply (trie_fuzzy_full_budget (Trie.build cat_words) (w "c") (w "cat") 2);
    [lia|simpl; lia].
Defined.

Lemma printed_words_app calls calls' :
  printed_words (calls ++ calls') = printed_words calls ++ printed_words calls'.
Proof. unfold printed_words. by rewrite flat_map_app. Qed.

Lemma printed_words_print_ d nd :
  ∀ sofar before,
    printed_words (Printer.print_ nd sofar before)
    = map fst (Trie.traverse d nd sofar).
Proof.
  induction nd as [cs IH] using node_ind. intros sofar before.
  rewrite traverse_unfold. cbn [Printer.print_]. rewrite printed_words_app.
  replace (printed_words (if bool_decide (1 < length cs) then [PrintBranch before sofar] else []))
    with (@nil word) by by destruct (bool_decide _).
  cbn [app]. generalize (before ++ (if bool_decide (1 < length cs) then [" "%char] else [])).
  intros before'. induction IH as [|[c child] cs Hchild _ IHcs]; [done|].
  cbn [flat_map fst snd] in *. rewrite printed_words_app, map_app, IHcs. f_equal.
  case_decide; [done|]. apply Hchild.
Qed.

(** X14.  [Trie.print] writes one word line for every word [traverse]
    enumerates, in the same order; for a trie built from terminator-free
    words these are the inserted words, each once. *)
Theorem print_writes_the_words (ws : list word) (d : Z) :
  Forall term_free ws →
  printed_words (Printer.print (Trie.build ws)) = map fst (Trie.traverse d (Trie.build ws) [])
  ∧ NoDup (printed_words (Printer.print (Trie.build ws)))
  ∧ ∀ x, In x (printed_words (Printer.print (Trie.build ws))) ↔ In x ws.
Proof.
  intros Hws. unfold Printer.print. rewrite (printed_words_print_ d).
  split; [done|]. split; [apply traverse_NoDup, build_uniq|].
  intros x. rewrite in_map_iff. split.
  - intros ([x' d'] & <- & Hin). by apply (traverse_build_In ws d x' d' Hws).
  - intros Hx. exists (x, d). split; [done|]. by apply traverse_build_In.
Qed.

Lemma print_writes_the_words_witness :
  Forall term_free cat_words
  ∧ printed_words (Printer.print (Trie.build cat_words))
    = map fst (Trie.traverse 0 (Trie.build cat_words) [])
  ∧ NoDup (printed_words (Printer.print (Trie.build cat_words)))
  ∧ ∀ x, In x (printed_words (Printer.print (Trie.build cat_words))) ↔ In x cat_words.
Proof.
  split; [exact cat_words_term_free|].
  exact (print_writes_the_words cat_words 0 cat_words_term_free).
Defined.

End further.
